(** * unnamedcast-server: the document-mapping and query layer (package db)

    A shallow embedding of [server/db/model.go]: the annotation parser
    ([parseFieldTag]), the model descriptor builder ([newModelInfo]), the
    change-copy utility ([CopyModel]) and query construction
    ([collection.Find]), with the properties the specification states
    about them. *)

From Stdlib Require Import ZArith Ascii.
From stdpp Require Import gmap strings list fin_maps.

Local Open Scope string_scope.
Local Open Scope list_scope.
Local Open Scope nat_scope.

(** ** Package reflect: struct types and their tags *)

Module reflect.

(** A [reflect.StructTag] in the conventional format is a sequence of
    [key:"value"] pairs.  The tag is kept as that sequence; [tag.Get(key)]
    is the value of the first pair under [key], and the empty string when
    there is none. *)
Definition StructTag := list (string * string).

Fixpoint Get (tag : StructTag) (key : string) : string :=
  match tag with
  | [] => ""
  | (k, v) :: rest => if String.eqb k key then v else Get rest key
  end.

(** A [reflect.StructField]: the field's name, whether it is exported
    (its [PkgPath] is empty) and its tag.  The static type of a field is
    not modelled. *)
Record StructField := mkStructField {
  Name : string;
  Exported : bool;
  Tag : StructTag
}.

End reflect.

(** [strings.Split(s, ",")]: the pieces of [s] between commas; never empty
    (a string without a comma is its own single piece). *)
Fixpoint Split (s : string) : list string :=
  match s with
  | EmptyString => [""]
  | String c rest =>
      if Ascii.eqb c ","%char then "" :: Split rest
      else match Split rest with
           | piece :: pieces => String c piece :: pieces
           | [] => [String c ""]
           end
  end.

(** ** Field descriptors *)

Record FieldInfo := mkFieldInfo {
  JSONName : string;
  JSONOmitEmpty : bool;
  BSONName : string;
  BSONOmitEmpty : bool;
  IndexName : string;
  IndexUnique : bool;
  IndexText : bool
}.

(** The zero value [FieldInfo{}]. *)
Definition FieldInfo_zero : FieldInfo :=
  mkFieldInfo "" false "" false "" false false.

(** [parseTag] writes through pointers into [tagInfo]: a [*string] for the
    name and a [*bool] per option.  The pointers are modelled by the field
    they point to, and a store through one by a record update. *)
Inductive nameRef := RefJSONName | RefBSONName | RefIndexName.
Inductive flagRef :=
  RefJSONOmitEmpty | RefBSONOmitEmpty | RefIndexUnique | RefIndexText.

#[global] Instance nameRef_eq_dec : EqDecision nameRef.
Proof. solve_decision. Defined.

#[global] Instance flagRef_eq_dec : EqDecision flagRef.
Proof. solve_decision. Defined.

Definition storeName (p : nameRef) (v : string) (ti : FieldInfo) : FieldInfo :=
  match p with
  | RefJSONName =>
      mkFieldInfo v (JSONOmitEmpty ti) (BSONName ti) (BSONOmitEmpty ti)
                  (IndexName ti) (IndexUnique ti) (IndexText ti)
  | RefBSONName =>
      mkFieldInfo (JSONName ti) (JSONOmitEmpty ti) v (BSONOmitEmpty ti)
                  (IndexName ti) (IndexUnique ti) (IndexText ti)
  | RefIndexName =>
      mkFieldInfo (JSONName ti) (JSONOmitEmpty ti) (BSONName ti)
                  (BSONOmitEmpty ti) v (IndexUnique ti) (IndexText ti)
  end.

(** [*opt.Flag = true] *)
Definition storeTrue (p : flagRef) (ti : FieldInfo) : FieldInfo :=
  match p with
  | RefJSONOmitEmpty =>
      mkFieldInfo (JSONName ti) true (BSONName ti) (BSONOmitEmpty ti)
                  (IndexName ti) (IndexUnique ti) (IndexText ti)
  | RefBSONOmitEmpty =>
      mkFieldInfo (JSONName ti) (JSONOmitEmpty ti) (BSONName ti) true
                  (IndexName ti) (IndexUnique ti) (IndexText ti)
  | RefIndexUnique =>
      mkFieldInfo (JSONName ti) (JSONOmitEmpty ti) (BSONName ti)
                  (BSONOmitEmpty ti) (IndexName ti) true (IndexText ti)
  | RefIndexText =>
      mkFieldInfo (JSONName ti) (JSONOmitEmpty ti) (BSONName ti)
                  (BSONOmitEmpty ti) (IndexName ti) (IndexUnique ti) true
  end.

Record option_ := mkOption { Key_ : string; Flag : flagRef }.

(** The inner loop of [parseTag]: [for _, opt := range opts]. *)
Fixpoint applyOpts (s : string) (opts : list option_) (ti : FieldInfo)
  : FieldInfo :=
  match opts with
  | [] => ti
  | opt :: rest =>
      applyOpts s rest
        (if String.eqb s (Key_ opt) then storeTrue (Flag opt) ti else ti)
  end.

(** The outer loop of [parseTag]: [for _, s := range split[1:]]. *)
Fixpoint applySplit (pieces : list string) (opts : list option_)
    (ti : FieldInfo) : FieldInfo :=
  match pieces with
  | [] => ti
  | s :: rest => applySplit rest opts (applyOpts s opts ti)
  end.

(** The closure [parseTag] of [parseFieldTag]; [tag] is the variable it
    captures, [ti] the [tagInfo] its pointers lead into. *)
Definition parseTag (tag : reflect.StructTag) (tagName : string) (name : nameRef)
    (opts : list option_) (ti : FieldInfo) : FieldInfo :=
  let info := reflect.Get tag tagName in
  if negb (String.eqb info "-") && negb (String.eqb info "") then
    let split := Split info in
    let ti := storeName name (hd "" split) ti in
    if 1 <? length split then applySplit (tl split) opts ti else ti
  else ti.

Definition parseFieldTag (tag : reflect.StructTag) : FieldInfo :=
  let tagInfo := FieldInfo_zero in
  let tagInfo :=
    parseTag tag "json" RefJSONName
      [mkOption "omitempty" RefJSONOmitEmpty] tagInfo in
  let tagInfo :=
    parseTag tag "bson" RefBSONName
      [mkOption "omitempty" RefJSONOmitEmpty] tagInfo in
  let tagInfo :=
    parseTag tag "index" RefIndexName
      [mkOption "unique" RefIndexUnique; mkOption "text" RefIndexText]
      tagInfo in
  (* If index name is omitted, default to bson name *)
  if negb (String.eqb (reflect.Get tag "index") "")
     && String.eqb (IndexName tagInfo) ""
  then storeName RefIndexName (BSONName tagInfo) tagInfo
  else tagInfo.

(** ** Model descriptors *)

(** The [Index] struct, as the composite literal in [newModelInfo] fills
    it: a name, the key list and the uniqueness flag. *)
Record Index := mkIndex {
  Name : string;
  Key : list string;
  Unique : bool
}.

Record ModelInfo := mkModelInfo {
  Fields : list FieldInfo;
  jsonNameMap : gmap string nat;
  bsonNameMap : gmap string nat;
  Indexes : gmap string Index
}.

Definition addField (field : FieldInfo) (info : ModelInfo) : ModelInfo :=
  let fields := Fields info ++ [field] in
  mkModelInfo fields
    (<[JSONName field := length fields - 1]> (jsonNameMap info))
    (<[BSONName field := length fields - 1]> (bsonNameMap info))
    (Indexes info).

(** [lookupName]: the descriptor a name map leads to, and whether the name
    was found.  An index outside [Fields] (a run-time panic in Go; the
    builder never stores one) reads as the zero descriptor. *)
Definition lookupName (info : ModelInfo) (name : string)
    (nameMap : gmap string nat) : FieldInfo * bool :=
  match nameMap !! name with
  | Some i => (default FieldInfo_zero (Fields info !! i), true)
  | None => (FieldInfo_zero, false)
  end.

Definition LookupAPIName (info : ModelInfo) (name : string) :=
  lookupName info name (jsonNameMap info).

Definition LookupDBName (info : ModelInfo) (name : string) :=
  lookupName info name (bsonNameMap info).

Definition setIndex (name : string) (idx : Index) (info : ModelInfo)
  : ModelInfo :=
  mkModelInfo (Fields info) (jsonNameMap info) (bsonNameMap info)
              (<[name := idx]> (Indexes info)).

(** One iteration of the loop of [newModelInfo], for the field [f].

    [info.Indexes] is a [map[string]Index]: it holds [Index] structs, not
    pointers to them, so [idx, ok := info.Indexes[...]] copies the element
    into the local [idx].  The assignment [idx.Key = append(idx.Key, ...)]
    updates that local only, and nothing stores it back into the map. *)
Definition newModelInfo_field (info : ModelInfo) (f : reflect.StructField)
  : ModelInfo :=
  let tag := parseFieldTag (reflect.Tag f) in
  if String.eqb (JSONName tag) "" || String.eqb (BSONName tag) "" then info
  else
    let info := addField tag info in
    if negb (String.eqb (IndexName tag) "") then
      match Indexes info !! IndexName tag with
      | Some idx =>
          let idx := mkIndex (Name idx) (Key idx ++ [BSONName tag])
                             (Unique idx) in
          info
      | None =>
          setIndex (IndexName tag)
            (mkIndex (IndexName tag) [BSONName tag] (IndexUnique tag)) info
      end
    else info.

(** [newModelInfo], given the struct type [reflect.TypeOf(m)] as the list
    of its fields in declaration order. *)
Definition newModelInfo (model : list reflect.StructField) : ModelInfo :=
  foldl newModelInfo_field (mkModelInfo [] ∅ ∅ ∅) model.

(** ** The change-copy utility *)

(** A Go panic: one raised by the code with a message, or one raised by
    package reflect (a call on a value of the wrong kind, an index out of
    range, a field read through an unexported name). *)
Inductive panic :=
| PanicString (msg : string)
| ReflectPanic.

Inductive result (A : Type) :=
| Panics (p : panic)
| Returns (a : A).
Arguments Panics {A} p.
Arguments Returns {A} a.

#[global] Instance result_bind : MBind result := λ A B k r,
  match r with
  | Panics p => Panics p
  | Returns a => k a
  end.

Definition isPanic {A : Type} (r : result A) : Prop :=
  match r with Panics _ => True | Returns _ => False end.

(** [isIgnoredField], the closure over [ignoredFields]. *)
Fixpoint isIgnoredField (ignoredFields : list string) (name : string) : bool :=
  match ignoredFields with
  | [] => false
  | s :: rest => if String.eqb s name then true else isIgnoredField rest name
  end.

Section CopyModel.

(** The values record fields hold, and [reflect.DeepEqual] on them. *)
Variable V : Type.
Variable DeepEqual : V → V → bool.

(** What an [interface{}] argument may hold: a struct (its type, as the
    list of its fields, and the values of the fields), a pointer (nil, or
    to an object), or anything else (a number, a string, the nil
    interface, ...). *)
Inductive object :=
| StructVal (t : list reflect.StructField) (fields : list V)
| NilPtr
| PtrTo (target : object)
| OtherVal.

(** A [reflect.Value]: the zero Value, or the Value of an object. *)
Inductive Value :=
| ZeroValue
| Val (o : object).

Inductive Kind := KInvalid | KPtr | KStruct | KOther.

Definition ValueOf (m : object) : Value := Val m.

(** [v.Elem()]: the Value a pointer leads to, the zero Value for a nil
    pointer; a panic on every other kind. *)
Definition Elem (v : Value) : result Value :=
  match v with
  | Val (PtrTo o) => Returns (Val o)
  | Val NilPtr => Returns ZeroValue
  | _ => Panics ReflectPanic
  end.

Definition kindOf (v : Value) : Kind :=
  match v with
  | ZeroValue => KInvalid
  | Val (StructVal _ _) => KStruct
  | Val NilPtr | Val (PtrTo _) => KPtr
  | Val OtherVal => KOther
  end.

Definition isPtr (v : Value) : bool :=
  match kindOf v with KPtr => true | _ => false end.

(** [v.Type()] panics on the zero Value.  Only the type of a struct is
    looked into later; the fields of any other type are [[]]. *)
Definition TypeOf (v : Value) : result (list reflect.StructField) :=
  match v with
  | ZeroValue => Panics ReflectPanic
  | Val (StructVal t _) => Returns t
  | Val _ => Returns []
  end.

(** [v.NumField()] panics unless [v] is a struct. *)
Definition NumField (v : Value) : result nat :=
  match v with
  | Val (StructVal t _) => Returns (length t)
  | _ => Panics ReflectPanic
  end.

(** [v.Field(i)]: the value of field [i] with the field's declaration;
    panics unless [v] is a struct with a field [i]. *)
Definition Field (v : Value) (i : nat) : result (V * reflect.StructField) :=
  match v with
  | Val (StructVal t fields) =>
      match fields !! i, t !! i with
      | Some x, Some tf => Returns (x, tf)
      | _, _ => Panics ReflectPanic
      end
  | _ => Panics ReflectPanic
  end.

(** A field Value can be turned into an [interface{}] when it was not
    reached through an unexported field, and can be set when it is also
    addressable. *)
Definition CanInterface (tf : reflect.StructField) : bool :=
  reflect.Exported tf.

Definition CanSet (addressable : bool) (tf : reflect.StructField) : bool :=
  addressable && reflect.Exported tf.

(** [f.Interface()] panics on a field that cannot be interfaced. *)
Definition Interface (x : V) (tf : reflect.StructField) : result V :=
  if CanInterface tf then Returns x else Panics ReflectPanic.

(** The loop [for i := 0; i < s1.NumField(); i++] from index [i] on, with
    [n] iterations left.  [t] and [dst] are the type and the current field
    values of the struct [s1] stands for (the loop writes into it through
    [f.Set]), [s2] is the other Value.  [s1] is the [Elem] of a pointer
    and so addressable.  Static types are not modelled: [f.Set(f2)] is
    taken between fields of one type, as they are in two structs of the
    same type. *)
Fixpoint copyFields (n i : nat) (t : list reflect.StructField)
    (dst : list V) (s2 : Value) (ignoredFields : list string)
    (changed : bool) : result (bool * list V) :=
  match n with
  | 0 => Returns (changed, dst)
  | S n' =>
      f ← Field (Val (StructVal t dst)) i;
      f2 ← Field s2 i;
      let fieldName := reflect.Name (snd f) in
      if negb (CanInterface (snd f)) || isIgnoredField ignoredFields fieldName
      then copyFields n' (S i) t dst s2 ignoredFields changed
      else
        x ← Interface (fst f) (snd f);
        x2 ← Interface (fst f2) (snd f2);
        if negb (DeepEqual x x2) then
          if negb (CanSet true (snd f)) then
            Panics (PanicString ("Cannot set field " ++ fieldName)%string)
          else
            copyFields n' (S i) t (<[i := fst f2]> dst) s2 ignoredFields true
        else copyFields n' (S i) t dst s2 ignoredFields changed
  end.

(** [CopyModel(m1, m2, ignoredFields...)].  A normal return gives the
    boolean and the field values the struct behind [m1] holds afterwards. *)
Definition CopyModel (m1 m2 : object) (ignoredFields : list string)
  : result (bool * list V) :=
  s1 ← Elem (ValueOf m1);
  s2 ← Elem (ValueOf m2);
  t ← TypeOf s1;
  if isPtr s1 || isPtr s2 then
    Panics (PanicString "CopyModel was called with a double pointer type")
  else
    n ← NumField s1;
    match s1 with
    | Val (StructVal _ dst) => copyFields n 0 t dst s2 ignoredFields false
    | _ => Panics ReflectPanic
    end.

(** The test one iteration makes on the field [tf], holding [x] in the
    destination and [y] in the source: whether it overwrites [x]. *)
Definition copies (ignoredFields : list string) (tf : reflect.StructField)
    (x y : V) : bool :=
  reflect.Exported tf
  && negb (isIgnoredField ignoredFields (reflect.Name tf))
  && negb (DeepEqual x y).

(** A pointer to a pointer: [**T], whatever the inner pointer holds. *)
Definition doublePointer (m : object) : Prop :=
  match m with
  | PtrTo NilPtr | PtrTo (PtrTo _) => True
  | _ => False
  end.

(** A record of type [t] passed the way the utility expects it: a pointer
    to the struct. *)
Definition record (t : list reflect.StructField) (fields : list V) : object :=
  PtrTo (StructVal t fields).

End CopyModel.

Arguments StructVal {V} t fields.
Arguments NilPtr {V}.
Arguments PtrTo {V} target.
Arguments OtherVal {V}.
Arguments ZeroValue {V}.
Arguments Val {V} o.
Arguments record {V} t fields.
Arguments doublePointer {V} m.

(** ** Go values of a few kinds, with [reflect.DeepEqual]

    Package reflect documents [DeepEqual] kind by kind.  Of its rules the
    instance below has: values of distinct types are never deeply equal;
    numbers, bools and strings are deeply equal when they are equal with
    [==]; func values are deeply equal if both are nil, and otherwise they
    are not deeply equal (not even a func and itself). *)
Module GoValue.

Inductive value :=
| Bool (b : bool)
| Int (n : Z)
| Str (s : string)
| Func (code : option nat).   (* nil, or the function with this identity *)

Definition DeepEqual (x y : value) : bool :=
  match x, y with
  | Bool a, Bool b => Bool.eqb a b
  | Int a, Int b => Z.eqb a b
  | Str a, Str b => String.eqb a b
  | Func None, Func None => true
  | _, _ => false
  end.

End GoValue.

(** ** Collections and queries *)

Section Find.

(** A store session ([*mgo.Session]) and a filter document ([bson.M]);
    both are passed through untouched. *)
Variable Session : Type.
Variable bsonM : Type.

Record Query := mkQuery {
  Filter : bsonM;
  SortField : string;
  SortDesc : bool;
  SelectedFields : list string;
  OmittedFields : list string;
  Limit : Z
}.

(** Modelled from the spec: the store-native query ([*mgo.Query], which
    [c.c.Find] returns) and the cursor type [query] with its methods
    [Select], [Sort] and [Limit] are not among the source files.  The spec
    has a cursor stand for "a declarative filter+sort+projection+limit
    request object translated into a store-native query"; the store query
    is kept as the four constraints put on it, each absent until set. *)
Record mgoQuery := mkMgoQuery {
  selector : option bsonM;
  projection : option (gmap string Z);
  sort : option string;
  limit : option Z
}.

(** [c.Find(nil)] and [c.Find(filter)] on the store collection. *)
Definition mgoFind (filter : option bsonM) : mgoQuery :=
  mkMgoQuery filter None None None.

Record mgoCollection := mkMgoCollection {
  Database_Session : Session;
  FullName : string
}.

Record query := mkCursor {
  s : Session;
  q : mgoQuery
}.

Definition query_Select (sel : gmap string Z) (cur : query) : query :=
  mkCursor (s cur)
    (mkMgoQuery (selector (q cur)) (Some sel) (sort (q cur)) (limit (q cur))).

Definition query_Sort (field : string) (cur : query) : query :=
  mkCursor (s cur)
    (mkMgoQuery (selector (q cur)) (projection (q cur)) (Some field)
                (limit (q cur))).

Definition query_Limit (n : Z) (cur : query) : query :=
  mkCursor (s cur)
    (mkMgoQuery (selector (q cur)) (projection (q cur)) (sort (q cur))
                (Some n)).

Record collection := mkCollection {
  c : mgoCollection;
  collection_ModelInfo : ModelInfo
}.

(** The projection map [sel] that [Find] fills: the selected fields first,
    each with [1], then the omitted fields, each with [-1]. *)
Definition selOf (q : Query) : gmap string Z :=
  let sel : gmap string Z := ∅ in
  let sel := foldl (λ sel s, <[s := 1%Z]> sel) sel (SelectedFields q) in
  let sel := foldl (λ sel s, <[s := (-1)%Z]> sel) sel (OmittedFields q) in
  sel.

Definition Find (c0 : collection) (q0 : option Query) : query :=
  match q0 with
  | None => mkCursor (Database_Session (c c0)) (mgoFind None)
  | Some q0 =>
      let cur :=
        mkCursor (Database_Session (c c0)) (mgoFind (Some (Filter q0))) in
      let sel := selOf q0 in
      let cur := if 0 <? size sel then query_Select sel cur else cur in
      let cur :=
        if negb (String.eqb (SortField q0) "") then
          let sortField := SortField q0 in
          let sortField :=
            if SortDesc q0 then ("-" ++ sortField)%string else sortField in
          query_Sort sortField cur
        else cur in
      let cur :=
        if (0 <? Limit q0)%Z then query_Limit (Limit q0) cur else cur in
      cur
  end.

End Find.

Arguments mkQuery {bsonM}.
Arguments mkMgoQuery {bsonM}.
Arguments mkCursor {Session bsonM}.
Arguments mkMgoCollection {Session}.
Arguments mkCollection {Session}.
Arguments Find {Session bsonM}.
Arguments selOf {bsonM}.
Arguments q {Session bsonM}.
Arguments s {Session bsonM}.
Arguments selector {bsonM}.
Arguments projection {bsonM}.
Arguments sort {bsonM}.
Arguments limit {bsonM}.
Arguments SelectedFields {bsonM}.
Arguments OmittedFields {bsonM}.

(** ** Definitions the statements below use *)

(** The name an annotation value gives its namespace: none for ["-"] and
    for the empty string, else what stands before the first comma. *)
Definition annotationName (info : string) : string :=
  if negb (String.eqb info "-") && negb (String.eqb info "")
  then hd "" (Split info) else "".

(** Whether a name contains a comma. *)
Fixpoint hasComma (name : string) : bool :=
  match name with
  | EmptyString => false
  | String c rest => Ascii.eqb c ","%char || hasComma rest
  end.

(** The index definition the first field that is kept (it has both an
    external and a storage name) and carries the index name [name] gives
    rise to. *)
Fixpoint firstIndex (name : string) (model : list reflect.StructField)
  : option Index :=
  match model with
  | [] => None
  | f :: rest =>
      let tag := parseFieldTag (reflect.Tag f) in
      if String.eqb (JSONName tag) "" || String.eqb (BSONName tag) ""
      then firstIndex name rest
      else if String.eqb (IndexName tag) name
           then Some (mkIndex name [BSONName tag] (IndexUnique tag))
           else firstIndex name rest
  end.

(** The reading of the lookup maps under which a field with a name in
    exactly one of the two namespaces is found in that namespace's map. *)
Definition lookup_maps_per_namespace (model : list reflect.StructField)
  : Prop :=
  ∀ f, f ∈ model →
    let fi := parseFieldTag (reflect.Tag f) in
    let info := newModelInfo model in
    (JSONName fi = "" → BSONName fi = "" →
       jsonNameMap info !! JSONName fi = None
       ∧ bsonNameMap info !! BSONName fi = None)
    ∧ (JSONName fi ≠ "" → BSONName fi = "" →
       is_Some (jsonNameMap info !! JSONName fi))
    ∧ (JSONName fi = "" → BSONName fi ≠ "" →
       is_Some (bsonNameMap info !! BSONName fi)).

(** What every entry of the two name maps leads to: a kept descriptor
    that carries the entry's name, and has both names. *)
Definition entries_kept (info : ModelInfo) : Prop :=
  (∀ name i, jsonNameMap info !! name = Some i →
     ∃ fi, Fields info !! i = Some fi ∧ JSONName fi = name)
  ∧ (∀ name i, bsonNameMap info !! name = Some i →
     ∃ fi, Fields info !! i = Some fi ∧ BSONName fi = name)
  ∧ Forall (λ fi, JSONName fi ≠ "" ∧ BSONName fi ≠ "") (Fields info).

(** Record types used in the examples. *)
Definition title_author_model : list reflect.StructField :=
  [ reflect.mkStructField "Title" true
      [("json", "title"); ("bson", "title"); ("index", "title_author,unique")];
    reflect.mkStructField "Author" true
      [("json", "author"); ("bson", "author"); ("index", "title_author")] ].

Definition json_only_model : list reflect.StructField :=
  [ reflect.mkStructField "Title" true [("json", "title")] ].


Definition handler_type : list reflect.StructField :=
  [ reflect.mkStructField "Handler" true [] ].


Definition double_pointer_message : string :=
  "CopyModel was called with a double pointer type".

(** A record type in the style of [Log], with an unexported field added,
    and two records of it. *)
Definition entry_type : list reflect.StructField :=
  [ reflect.mkStructField "ID" true [("bson", "_id,omitempty"); ("json", "id")];
    reflect.mkStructField "Method" true
      [("bson", "method"); ("json", "method")];
    reflect.mkStructField "StatusCode" true
      [("bson", "status_code"); ("json", "status_code")];
    reflect.mkStructField "seen" false [] ].

Definition entry_A : list GoValue.value :=
  [ GoValue.Str "a1"; GoValue.Str "GET"; GoValue.Int 200; GoValue.Bool false ].


Definition entry_B : list GoValue.value :=
  [ GoValue.Str "b2"; GoValue.Str "POST"; GoValue.Int 200; GoValue.Bool true ].

(** Reading a flag through its pointer. *)
Definition getFlag (p : flagRef) (ti : FieldInfo) : bool :=
  match p with
  | RefJSONOmitEmpty => JSONOmitEmpty ti
  | RefBSONOmitEmpty => BSONOmitEmpty ti
  | RefIndexUnique => IndexUnique ti
  | RefIndexText => IndexText ti
  end.

(** Whether an annotation value names its field (it is neither ["-"] nor
    empty) and lists the option [opt] after the name. *)
Definition hasOption (info opt : string) : bool :=
  negb (String.eqb info "-") && negb (String.eqb info "")
  && existsb (λ s, String.eqb s opt) (tl (Split info)).

(** A parsed field is kept by the builder when it has both an external
    and a storage name. *)
Definition kept (fi : FieldInfo) : Prop :=
  JSONName fi ≠ "" ∧ BSONName fi ≠ "".

#[global] Instance kept_dec fi : Decision (kept fi).
Proof. unfold kept. apply _. Defined.

(** The parsed annotations of a record type, field by field. *)
Definition parsedFields (model : list reflect.StructField) : list FieldInfo :=
  (λ f, parseFieldTag (reflect.Tag f)) <$> model.

(** [i] is the last position in [fields] whose name under [proj] is
    [name]. *)
Definition lastWith (proj : FieldInfo → string) (fields : list FieldInfo)
    (name : string) (i : nat) : Prop :=
  (∃ fi, fields !! i = Some fi ∧ proj fi = name)
  ∧ ∀ j fj, i < j → fields !! j = Some fj → proj fj ≠ name.

(** [i] is the first position in [fields] whose index name is [name], and
    [first] the descriptor there. *)
Definition firstWithIndex (fields : list FieldInfo) (name : string)
    (i : nat) (first : FieldInfo) : Prop :=
  fields !! i = Some first ∧ IndexName first = name
  ∧ ∀ j fj, fields !! j = Some fj → j < i → IndexName fj ≠ name.

(** ** Package itunes: the alphabet pages of a feed list page *)

(** [strings.Split(s, "")] on ASCII text: one string per character. *)
Fixpoint explode (s : string) : list string :=
  match s with
  | EmptyString => []
  | String c rest => String c "" :: explode rest
  end.

Definition alphabetList : list string :=
  explode "ABCDEFGHIJKLMNOPQRSTUVWXYZ#".

Section AlphabetPageList.

(** Package net/url, as far as the function uses it: an error type, a
    URL as its raw query and the rest of it, parsing of a URL and of a
    raw query, and the printing of query values and of a URL. *)
Variable error : Type.
Variable urlRest : Type.

Record URL := mkURL {
  RawQuery : string;
  URL_rest : urlRest
}.

Variable url_Parse : string → error + URL.
Variable url_ParseQuery : string → gmap string (list string).
Variable Values_Encode : gmap string (list string) → string.
Variable URL_String : URL → string.

(** [u.Query()] *)
Definition URL_Query (u : URL) : gmap string (list string) :=
  url_ParseQuery (RawQuery u).

(** [vals.Set(key, value)] *)
Definition Values_Set (key value : string)
    (vals : gmap string (list string)) : gmap string (list string) :=
  <[key := [value]]> vals.

(** The loop [for i := range alphabetList] over the letters left.  The
    map [vals] and the URL [u] are shared by all iterations: each one
    sets the letter in the same map and stores the encoded query in the
    same URL before printing it. *)
Fixpoint alphabetPages (letters : list string)
    (vals : gmap string (list string)) (u : URL) (out : list string)
  : list string :=
  match letters with
  | [] => out
  | letter :: rest =>
      let vals := Values_Set "letter" letter vals in
      let u := mkURL (Values_Encode vals) (URL_rest u) in
      alphabetPages rest vals u (out ++ [URL_String u])
  end.

Definition AlphabetPageListForFeedListPage (urlStr : string)
  : error + list string :=
  match url_Parse urlStr with
  | inl err => inl err
  | inr u => inr (alphabetPages alphabetList (URL_Query u) u [])
  end.

(** The page for one letter: the URL with the letter set in its query. *)
Definition alphabetPage (vals : gmap string (list string)) (u : URL)
    (letter : string) : string :=
  URL_String (mkURL (Values_Encode (<["letter" := [letter]]> vals))
                    (URL_rest u)).

End AlphabetPageList.

Arguments mkURL {urlRest}.
Arguments RawQuery {urlRest}.
Arguments URL_rest {urlRest}.

(** * Properties *)

(** ** The annotation parser *)

Lemma storeTrue_names p ti :
  JSONName (storeTrue p ti) = JSONName ti
  ∧ BSONName (storeTrue p ti) = BSONName ti
  ∧ IndexName (storeTrue p ti) = IndexName ti.
Proof. by destruct p. Qed.

Lemma applyOpts_names s opts ti :
  JSONName (applyOpts s opts ti) = JSONName ti
  ∧ BSONName (applyOpts s opts ti) = BSONName ti
  ∧ IndexName (applyOpts s opts ti) = IndexName ti.
Proof.
  revert ti. induction opts as [|opt opts IH]; intros ti; simpl; [done|].
  destruct (IH (if String.eqb s (Key_ opt)
                then storeTrue (Flag opt) ti else ti)) as (-> & -> & ->).
  destruct (String.eqb s (Key_ opt)); [apply storeTrue_names | done].
Qed.

Lemma applySplit_names pieces opts ti :
  JSONName (applySplit pieces opts ti) = JSONName ti
  ∧ BSONName (applySplit pieces opts ti) = BSONName ti
  ∧ IndexName (applySplit pieces opts ti) = IndexName ti.
Proof.
  revert ti. induction pieces as [|s pieces IH]; intros ti; simpl; [done|].
  destruct (IH (applyOpts s opts ti)) as (-> & -> & ->).
  apply applyOpts_names.
Qed.

Lemma parseTag_names tag tagName name opts ti :
  let ti' := parseTag tag tagName name opts ti in
  let info := reflect.Get tag tagName in
  let named := negb (String.eqb info "-") && negb (String.eqb info "") in
  JSONName ti' = (if named && bool_decide (name = RefJSONName)
                  then annotationName info else JSONName ti)
  ∧ BSONName ti' = (if named && bool_decide (name = RefBSONName)
                    then annotationName info else BSONName ti)
  ∧ IndexName ti' = (if named && bool_decide (name = RefIndexName)
                     then annotationName info else IndexName ti).
Proof.
  unfold parseTag, annotationName. simpl.
  destruct (negb (String.eqb (reflect.Get tag tagName) "-")
            && negb (String.eqb (reflect.Get tag tagName) "")); [|done].
  destruct (1 <? length (Split (reflect.Get tag tagName)));
    [destruct (applySplit_names (tl (Split (reflect.Get tag tagName))) opts
       (storeName name (hd "" (Split (reflect.Get tag tagName))) ti))
       as (-> & -> & ->)|];
    by destruct name.
Qed.

(** The three names of a parsed annotation, in closed form. *)
Lemma parseFieldTag_names tag :
  let fi := parseFieldTag tag in
  let index := reflect.Get tag "index" in
  JSONName fi = annotationName (reflect.Get tag "json")
  ∧ BSONName fi = annotationName (reflect.Get tag "bson")
  ∧ IndexName fi =
      (if negb (String.eqb index "") && String.eqb (annotationName index) ""
       then annotationName (reflect.Get tag "bson")
       else annotationName index).
Proof.
  unfold parseFieldTag. simpl.
  set (t1 := parseTag tag "json" _ _ _).
  set (t2 := parseTag tag "bson" _ _ t1).
  set (t3 := parseTag tag "index" _ _ t2).
  destruct (parseTag_names tag "json" RefJSONName
              [mkOption "omitempty" RefJSONOmitEmpty] FieldInfo_zero)
    as (J1 & B1 & I1).
  destruct (parseTag_names tag "bson" RefBSONName
              [mkOption "omitempty" RefJSONOmitEmpty] t1) as (J2 & B2 & I2).
  destruct (parseTag_names tag "index" RefIndexName
              [mkOption "unique" RefIndexUnique; mkOption "text" RefIndexText]
              t2) as (J3 & B3 & I3).
  fold t1 in J1, B1, I1. fold t2 in J2, B2, I2. fold t3 in J3, B3, I3.
  simpl in *.
  assert (HJ : JSONName t3 = annotationName (reflect.Get tag "json")).
  { rewrite J3, J2, J1. rewrite !andb_false_r, andb_true_r.
    unfold annotationName. by repeat case_match. }
  assert (HB : BSONName t3 = annotationName (reflect.Get tag "bson")).
  { rewrite B3, B2. rewrite !andb_false_r, andb_true_r.
    rewrite B1, andb_false_r.
    unfold annotationName. by repeat case_match. }
  assert (HI : IndexName t3 = annotationName (reflect.Get tag "index")).
  { rewrite I3, I2, I1. rewrite !andb_false_r, andb_true_r.
    unfold annotationName. by repeat case_match. }
  rewrite HI.
  destruct (negb (String.eqb (reflect.Get tag "index") "")
            && String.eqb (annotationName (reflect.Get tag "index")) "");
    simpl; by rewrite ?HJ, ?HB, ?HI.
Qed.

Lemma Split_name_options name rest :
  hasComma name = false →
  Split (name ++ String ","%char rest)%string = name :: Split rest.
Proof.
  induction name as [|c name IH]; simpl; [done|].
  intros [Hc Hn]%orb_false_elim. rewrite Hc, (IH Hn). done.
Qed.

Lemma name_options_named name rest :
  let info := (name ++ String ","%char rest)%string in
  negb (String.eqb info "-") && negb (String.eqb info "") = true.
Proof.
  destruct name as [|c [|c' name]]; simpl; [done| |].
  - by destruct (Ascii.eqb c "-"%char).
  - by destruct (Ascii.eqb c "-"%char).
Qed.

(** [parseTag] on an annotation [<name>,omitempty] with the one option
    [omitempty]: the name is stored, and the flag the option points to is
    set. *)
Lemma parseTag_omitempty tag tagName name flag ti n :
  reflect.Get tag tagName = (n ++ ",omitempty")%string →
  hasComma n = false →
  parseTag tag tagName name [mkOption "omitempty" flag] ti
  = storeTrue flag (storeName name n ti).
Proof.
  intros Hget Hn. unfold parseTag. rewrite Hget.
  rewrite (name_options_named n "omitempty").
  rewrite (Split_name_options n "omitempty" Hn). done.
Qed.

Lemma storeName_flags p v ti :
  JSONOmitEmpty (storeName p v ti) = JSONOmitEmpty ti
  ∧ BSONOmitEmpty (storeName p v ti) = BSONOmitEmpty ti.
Proof. by destruct p. Qed.

(** No step of the parser clears a flag that is set. *)
Lemma applyOpts_JSONOmitEmpty s opts ti :
  JSONOmitEmpty ti = true → JSONOmitEmpty (applyOpts s opts ti) = true.
Proof.
  revert ti. induction opts as [|opt opts IH]; intros ti H; simpl; [done|].
  apply IH. destruct (String.eqb s (Key_ opt)); [|done].
  by destruct (Flag opt).
Qed.

Lemma applySplit_JSONOmitEmpty pieces opts ti :
  JSONOmitEmpty ti = true → JSONOmitEmpty (applySplit pieces opts ti) = true.
Proof.
  revert ti. induction pieces as [|s pieces IH]; intros ti H; simpl; [done|].
  by apply IH, applyOpts_JSONOmitEmpty.
Qed.

Lemma parseTag_JSONOmitEmpty tag tagName name opts ti :
  JSONOmitEmpty ti = true →
  JSONOmitEmpty (parseTag tag tagName name opts ti) = true.
Proof.
  intros H. unfold parseTag. repeat case_match; try done.
  - apply applySplit_JSONOmitEmpty. by destruct name.
  - by destruct name.
Qed.

(** A store through a flag pointer other than [&tagInfo.BSONOmitEmpty]
    leaves [BSONOmitEmpty] as it is. *)
Lemma applyOpts_BSONOmitEmpty s opts ti :
  Forall (λ opt, Flag opt ≠ RefBSONOmitEmpty) opts →
  BSONOmitEmpty (applyOpts s opts ti) = BSONOmitEmpty ti.
Proof.
  intros Hopts. revert ti.
  induction Hopts as [|opt opts Hopt _ IH]; intros ti; simpl; [done|].
  rewrite IH. destruct (String.eqb s (Key_ opt)); [|done].
  by destruct (Flag opt).
Qed.

Lemma applySplit_BSONOmitEmpty pieces opts ti :
  Forall (λ opt, Flag opt ≠ RefBSONOmitEmpty) opts →
  BSONOmitEmpty (applySplit pieces opts ti) = BSONOmitEmpty ti.
Proof.
  intros Hopts. revert ti.
  induction pieces as [|s pieces IH]; intros ti; simpl; [done|].
  by rewrite IH, applyOpts_BSONOmitEmpty.
Qed.

Lemma parseTag_BSONOmitEmpty tag tagName name opts ti :
  Forall (λ opt, Flag opt ≠ RefBSONOmitEmpty) opts →
  BSONOmitEmpty (parseTag tag tagName name opts ti) = BSONOmitEmpty ti.
Proof.
  intros Hopts. unfold parseTag. repeat case_match; try done.
  - rewrite applySplit_BSONOmitEmpty by done. by destruct name.
  - by destruct name.
Qed.

(** No annotation makes the parser set the storage omit-if-empty flag:
    none of the option lists handed to [parseTag] points to it. *)
Lemma parseFieldTag_BSONOmitEmpty tag :
  BSONOmitEmpty (parseFieldTag tag) = false.
Proof.
  unfold parseFieldTag.
  set (t3 := parseTag tag "index" _ _ _).
  assert (H3 : BSONOmitEmpty t3 = false).
  { unfold t3. rewrite !parseTag_BSONOmitEmpty; [done|..];
      repeat constructor; done. }
  case_match; [|done]. by destruct (storeName_flags RefIndexName
                                      (BSONName t3) t3) as [_ ->].
Qed.

(** An external-namespace annotation [<name>,omitempty] gives the external
    name [<name>] and sets the external omit-if-empty flag. *)
Lemma parseFieldTag_json_omitempty tag n :
  reflect.Get tag "json" = (n ++ ",omitempty")%string →
  hasComma n = false →
  JSONName (parseFieldTag tag) = n
  ∧ JSONOmitEmpty (parseFieldTag tag) = true.
Proof.
  intros Hget Hn. split.
  - destruct (parseFieldTag_names tag) as (-> & _). unfold annotationName.
    rewrite Hget, (name_options_named n "omitempty").
    by rewrite (Split_name_options n "omitempty" Hn).
  - unfold parseFieldTag.
    rewrite (parseTag_omitempty tag "json" _ _ _ n Hget Hn).
    set (t3 := parseTag tag "index" _ _ _).
    assert (H3 : JSONOmitEmpty t3 = true)
      by (unfold t3; by do 2 apply parseTag_JSONOmitEmpty).
    case_match; [|done]. by destruct (storeName_flags RefIndexName
                                        (BSONName t3) t3) as [-> _].
Qed.

(** A storage-namespace annotation [<name>,omitempty] gives the storage
    name [<name>]; the flag it sets is the external one, and the storage
    omit-if-empty flag stays clear. *)
Lemma parseFieldTag_bson_omitempty tag n :
  reflect.Get tag "bson" = (n ++ ",omitempty")%string →
  hasComma n = false →
  BSONName (parseFieldTag tag) = n
  ∧ BSONOmitEmpty (parseFieldTag tag) = false
  ∧ JSONOmitEmpty (parseFieldTag tag) = true.
Proof.
  intros Hget Hn. split; [|split].
  - destruct (parseFieldTag_names tag) as (_ & -> & _). unfold annotationName.
    rewrite Hget, (name_options_named n "omitempty").
    by rewrite (Split_name_options n "omitempty" Hn).
  - apply parseFieldTag_BSONOmitEmpty.
  - unfold parseFieldTag.
    rewrite (parseTag_omitempty tag "bson" _ _ _ n Hget Hn).
    set (t3 := parseTag tag "index" _ _ _).
    assert (H3 : JSONOmitEmpty t3 = true)
      by (unfold t3; by apply parseTag_JSONOmitEmpty).
    case_match; [|done]. by destruct (storeName_flags RefIndexName
                                        (BSONName t3) t3) as [-> _].
Qed.

Lemma parseFieldTag_json_omitempty_witness :
  JSONName (parseFieldTag [("json", "id,omitempty"); ("bson", "_id")]) = "id"
  ∧ JSONOmitEmpty (parseFieldTag [("json", "id,omitempty"); ("bson", "_id")])
    = true.
Proof.
  apply (parseFieldTag_json_omitempty
           [("json", "id,omitempty"); ("bson", "_id")] "id"); reflexivity.
Defined.

Lemma parseFieldTag_bson_omitempty_witness :
  BSONName (parseFieldTag [("bson", "_id,omitempty"); ("json", "id")]) = "_id"
  ∧ BSONOmitEmpty (parseFieldTag [("bson", "_id,omitempty"); ("json", "id")])
    = false
  ∧ JSONOmitEmpty (parseFieldTag [("bson", "_id,omitempty"); ("json", "id")])
    = true.
Proof.
  apply (parseFieldTag_bson_omitempty
           [("bson", "_id,omitempty"); ("json", "id")] "_id"); reflexivity.
Defined.

(** C3. For the field [ID] of [Log], annotated [bson:"_id,omitempty"
    json:"id"], the parser gives the storage name [_id] but leaves the
    storage omit-if-empty flag clear; it sets the external omit-if-empty
    flag instead, which the external annotation [id] does not ask for. *)
Theorem parseFieldTag_Log_ID :
  let fi := parseFieldTag [("bson", "_id,omitempty"); ("json", "id")] in
  BSONName fi = "_id" ∧ BSONOmitEmpty fi = false
  ∧ JSONName fi = "id" ∧ JSONOmitEmpty fi = true.
Proof. by vm_compute. Qed.

(** An index annotation that is exactly [-] does not leave the field
    without an index name: the default applies to it as to an annotation
    that omits the name, and the index name is the storage name. *)
Lemma parseFieldTag_index_dash tag :
  reflect.Get tag "index" = "-" →
  IndexName (parseFieldTag tag) = BSONName (parseFieldTag tag).
Proof.
  intros Hget. destruct (parseFieldTag_names tag) as (_ & -> & ->).
  by rewrite Hget.
Qed.

Lemma parseFieldTag_index_dash_witness :
  IndexName (parseFieldTag [("json", "g"); ("bson", "guid"); ("index", "-")])
  = BSONName (parseFieldTag [("json", "g"); ("bson", "guid"); ("index", "-")]).
Proof.
  apply (parseFieldTag_index_dash
           [("json", "g"); ("bson", "guid"); ("index", "-")]).
  reflexivity.
Defined.

(** The index name is the storage name by default only when the index
    annotation is not empty and names no index; otherwise it is the name
    the annotation gives. *)
Lemma parseFieldTag_index_default tag :
  IndexName (parseFieldTag tag) ≠ annotationName (reflect.Get tag "index") →
  reflect.Get tag "index" ≠ ""
  ∧ annotationName (reflect.Get tag "index") = ""
  ∧ IndexName (parseFieldTag tag) = BSONName (parseFieldTag tag).
Proof.
  destruct (parseFieldTag_names tag) as (_ & -> & ->).
  destruct (String.eqb_spec (reflect.Get tag "index") ""); simpl; [done|].
  destruct (String.eqb_spec (annotationName (reflect.Get tag "index")) "");
    done.
Qed.

Lemma parseFieldTag_index_default_witness :
  reflect.Get [("json", "g"); ("bson", "guid"); ("index", ",unique")] "index"
  ≠ ""
  ∧ annotationName
      (reflect.Get [("json", "g"); ("bson", "guid"); ("index", ",unique")]
                   "index") = ""
  ∧ IndexName
      (parseFieldTag [("json", "g"); ("bson", "guid"); ("index", ",unique")])
    = BSONName
        (parseFieldTag [("json", "g"); ("bson", "guid"); ("index", ",unique")]).
Proof.
  apply (parseFieldTag_index_default
           [("json", "g"); ("bson", "guid"); ("index", ",unique")]).
  discriminate.
Defined.

(** C4. For a field annotated [json:"title" bson:"title" index:"-"] the
    parser gives the index name [title], the field's storage name, not the
    empty index name. *)
Theorem parseFieldTag_index_dash_title :
  let fi :=
    parseFieldTag [("json", "title"); ("bson", "title"); ("index", "-")] in
  reflect.Get [("json", "title"); ("bson", "title"); ("index", "-")] "index"
    = "-"
  ∧ IndexName fi = "title" ∧ IndexName fi ≠ "".
Proof. by vm_compute. Qed.

(** ** The model descriptor builder *)

Lemma newModelInfo_snoc model f :
  newModelInfo (model ++ [f]) = newModelInfo_field (newModelInfo model) f.
Proof. unfold newModelInfo. by rewrite foldl_app. Qed.

(** A field without an external name or without a storage name leaves the
    descriptor under construction as it is. *)
Lemma newModelInfo_field_skip info f :
  JSONName (parseFieldTag (reflect.Tag f)) = ""
  ∨ BSONName (parseFieldTag (reflect.Tag f)) = "" →
  newModelInfo_field info f = info.
Proof.
  intros H. unfold newModelInfo_field.
  destruct H as [-> | ->]; simpl; [done|]. by rewrite orb_true_r.
Qed.

Lemma newModelInfo_field_Indexes info f name :
  Indexes (newModelInfo_field info f) !! name =
    match Indexes info !! name with
    | Some idx => Some idx
    | None => if String.eqb name "" then None else firstIndex name [f]
    end.
Proof.
  unfold newModelInfo_field, firstIndex.
  destruct (String.eqb (JSONName _) "" || String.eqb (BSONName _) "").
  { repeat case_match; done. }
  set (tag := parseFieldTag (reflect.Tag f)).
  destruct (String.eqb_spec (IndexName tag) "") as [He|Hne]; simpl.
  - rewrite He. destruct (String.eqb_spec "" name) as [<-|?];
      by repeat case_match.
  - destruct (Indexes info !! IndexName tag) as [idx|] eqn:Hidx; simpl.
    + destruct (String.eqb_spec (IndexName tag) name) as [<-|?];
        [by rewrite Hidx | by repeat case_match].
    + destruct (String.eqb_spec (IndexName tag) name) as [<-|?].
      * rewrite lookup_insert_eq, Hidx.
        by destruct (String.eqb_spec (IndexName tag) "").
      * rewrite lookup_insert_ne by done. by repeat case_match.
Qed.

Lemma firstIndex_app name model1 model2 :
  firstIndex name (model1 ++ model2) =
    match firstIndex name model1 with
    | Some idx => Some idx
    | None => firstIndex name model2
    end.
Proof.
  induction model1 as [|f model1 IH]; simpl; [done|].
  by repeat case_match.
Qed.

(** The index map of a descriptor, in closed form: under a non-empty
    index name stands the definition the first kept field with that index
    name gives: that field's storage name as the only key, and that
    field's uniqueness flag. *)
Lemma newModelInfo_Indexes model name :
  Indexes (newModelInfo model) !! name =
    if String.eqb name "" then None else firstIndex name model.
Proof.
  induction model as [|f model IH] using rev_ind.
  - simpl. rewrite lookup_empty. by case_match.
  - rewrite newModelInfo_snoc, newModelInfo_field_Indexes, IH.
    rewrite firstIndex_app.
    destruct (String.eqb name ""); [done|]. by repeat case_match.
Qed.

Lemma firstIndex_single_key name model idx :
  firstIndex name model = Some idx →
  Name idx = name ∧ ∃ k, Key idx = [k].
Proof.
  induction model as [|f model IH]; simpl; [done|].
  repeat case_match; try done. intros [= <-]. eauto.
Qed.

(** Every index definition the builder stores has exactly one key, however
    many fields carry its name. *)
Lemma newModelInfo_single_key model name idx :
  Indexes (newModelInfo model) !! name = Some idx →
  Name idx = name ∧ ∃ k, Key idx = [k].
Proof.
  rewrite newModelInfo_Indexes. case_match; [done|].
  apply firstIndex_single_key.
Qed.

Lemma newModelInfo_single_key_witness :
  Name (mkIndex "title_author" ["title"] true) = "title_author"
  ∧ ∃ k, Key (mkIndex "title_author" ["title"] true) = [k].
Proof.
  apply (newModelInfo_single_key title_author_model "title_author"
           (mkIndex "title_author" ["title"] true)).
  vm_compute. reflexivity.
Defined.

(** C1. For a record type whose fields [Title] and [Author] both carry the
    index name [title_author], the index definition stored under that name
    has the key list [title] alone: the storage name [author] of the
    second field is missing from it.  Its uniqueness flag is that of
    [Title], the first of the two. *)
Theorem newModelInfo_title_author_index :
  Indexes (newModelInfo title_author_model) !! "title_author"
  = Some (mkIndex "title_author" ["title"] true)
  ∧ (IndexName <$> Fields (newModelInfo title_author_model))
    = ["title_author"; "title_author"]
  ∧ (BSONName <$> Fields (newModelInfo title_author_model))
    = ["title"; "author"].
Proof.
  by vm_compute.
Qed.

Lemma addField_entries_kept field info :
  JSONName field ≠ "" → BSONName field ≠ "" →
  entries_kept info → entries_kept (addField field info).
Proof.
  intros HJ HB (Hjson & Hbson & Hall). unfold addField; simpl.
  assert (Hlast : (Fields info ++ [field])
                    !! (length (Fields info ++ [field]) - 1) = Some field).
  { rewrite length_app; simpl.
    replace (length (Fields info) + 1 - 1) with (length (Fields info)) by lia.
    by rewrite lookup_app_r, Nat.sub_diag. }
  split; [|split]; simpl.
  - intros name i. destruct (decide (JSONName field = name)) as [<-|Hne].
    + rewrite lookup_insert_eq. intros [= <-]. eauto.
    + rewrite lookup_insert_ne by done. intros (fi & Hfi & <-)%Hjson.
      exists fi. split; [|done]. by apply lookup_app_l_Some.
  - intros name i. destruct (decide (BSONName field = name)) as [<-|Hne].
    + rewrite lookup_insert_eq. intros [= <-]. eauto.
    + rewrite lookup_insert_ne by done. intros (fi & Hfi & <-)%Hbson.
      exists fi. split; [|done]. by apply lookup_app_l_Some.
  - apply Forall_app. split; [done|]. by repeat constructor.
Qed.

Lemma newModelInfo_field_entries_kept info f :
  entries_kept info → entries_kept (newModelInfo_field info f).
Proof.
  intros Hinfo. unfold newModelInfo_field.
  set (tag := parseFieldTag (reflect.Tag f)).
  destruct (String.eqb_spec (JSONName tag) ""); simpl; [done|].
  destruct (String.eqb_spec (BSONName tag) ""); simpl; [done|].
  pose proof (addField_entries_kept tag info) as Hadd.
  repeat case_match; by apply Hadd.
Qed.

Lemma newModelInfo_entries_kept model : entries_kept (newModelInfo model).
Proof.
  induction model as [|f model IH] using rev_ind.
  - repeat split; try done; intros ? ?; by rewrite lookup_empty.
  - rewrite newModelInfo_snoc. by apply newModelInfo_field_entries_kept.
Qed.

(** C2, as amended. A field whose annotation yields no name in the
    external namespace or no name in the storage namespace is in neither
    name-lookup map, also when it has a name in the other namespace: the
    descriptor is the one of the record type without the field, and every
    entry of either map leads to a descriptor the builder kept, which has
    both names. *)
Theorem newModelInfo_unnamed_field_in_no_map pre f post :
  JSONName (parseFieldTag (reflect.Tag f)) = ""
  ∨ BSONName (parseFieldTag (reflect.Tag f)) = "" →
  let info := newModelInfo (pre ++ f :: post) in
  info = newModelInfo (pre ++ post)
  ∧ (∀ name i,
       jsonNameMap info !! name = Some i ∨ bsonNameMap info !! name = Some i →
       ∃ fi, Fields info !! i = Some fi
             ∧ JSONName fi ≠ "" ∧ BSONName fi ≠ ""
             ∧ (JSONName fi = name ∨ BSONName fi = name)).
Proof.
  intros Hf info. split.
  - unfold info, newModelInfo. rewrite !foldl_app. simpl.
    by rewrite (newModelInfo_field_skip _ f Hf).
  - destruct (newModelInfo_entries_kept (pre ++ f :: post))
      as (Hjson & Hbson & Hall).
    intros name i [(fi & Hfi & <-)%Hjson | (fi & Hfi & <-)%Hbson];
      exists fi; pose proof (Forall_lookup_1 _ _ _ _ Hall Hfi) as [??];
      eauto.
Qed.

Lemma newModelInfo_unnamed_field_in_no_map_witness :
  newModelInfo (title_author_model ++ json_only_model)
  = newModelInfo (title_author_model ++ [])
  ∧ (∀ name i,
       jsonNameMap (newModelInfo (title_author_model ++ json_only_model))
         !! name = Some i
       ∨ bsonNameMap (newModelInfo (title_author_model ++ json_only_model))
           !! name = Some i →
       ∃ fi, Fields (newModelInfo (title_author_model ++ json_only_model))
               !! i = Some fi
             ∧ JSONName fi ≠ "" ∧ BSONName fi ≠ ""
             ∧ (JSONName fi = name ∨ BSONName fi = name)).
Proof.
  apply (newModelInfo_unnamed_field_in_no_map title_author_model
           (reflect.mkStructField "Title" true [("json", "title")]) []).
  right. reflexivity.
Defined.

(** C2, as stated, fails. The field [Title] of [json_only_model] has the
    external name [title] and no storage name, and the external-name map
    of the descriptor has no entry for it. *)
Lemma newModelInfo_json_only_not_in_map :
  JSONName (parseFieldTag [("json", "title")]) = "title"
  ∧ BSONName (parseFieldTag [("json", "title")]) = ""
  ∧ jsonNameMap (newModelInfo json_only_model) !! "title" = None
  ∧ LookupAPIName (newModelInfo json_only_model) "title"
    = (FieldInfo_zero, false)
  ∧ ¬ lookup_maps_per_namespace json_only_model.
Proof.
  assert (Hnone : jsonNameMap (newModelInfo json_only_model) !! "title"
                  = None) by by vm_compute.
  split; [done|]. split; [done|]. split; [done|].
  split; [by vm_compute|].
  intros Hclaim.
  destruct (Hclaim (reflect.mkStructField "Title" true [("json", "title")]))
    as (_ & Hjson & _); [by apply list_elem_of_singleton|].
  assert (Hsome : is_Some (jsonNameMap (newModelInfo json_only_model)
                             !! "title")) by by apply Hjson.
  rewrite Hnone in Hsome. by destruct Hsome.
Qed.

(** ** The change-copy utility *)

(** The cases of [copyFields_same_type] in which iteration [i] leaves its
    field as it is: the rest of the loop runs on the same destination, and
    [simplify_copies] shows that the test [copies] fails at [i]. *)
Ltac field_kept IH i dst changed simplify_copies :=
  let j := fresh "j" in
  let Hj := fresh "Hj" in
  let Hcp := fresh "Hcp" in
  destruct (IH (S i) dst changed)
    as (c' & d' & Hrun & Hlen & Hpre & Hpost & Hc); [lia|done|done|];
  exists c', d'; split; [done|]; split; [done|]; split; [|split];
  [ intros j Hj; apply Hpre; lia
  | intros j tf' x' y' Hj Htf' Hx' Hy';
    destruct (decide (j = i)) as [->|Hne];
    [ rewrite Hpre by lia; simplify_eq; unfold copies; by simplify_copies
    | apply Hpost; [lia|done..] ]
  | rewrite Hc; split;
    intros [?|(j & tf' & x' & y' & Hj & Htf' & Hx' & Hy' & Hcp)];
    [ by left
    | right; exists j, tf', x', y'; repeat split; [lia|done..]
    | by left
    | destruct (decide (j = i)) as [->|Hne];
      [ simplify_eq; unfold copies in Hcp; revert Hcp; by simplify_copies
      | right; exists j, tf', x', y'; repeat split; [lia|done..] ] ] ].

Section CopyModel_properties.

Variable V : Type.
Variable DeepEqual : V → V → bool.

(** The loop over two structs of the same type [t], from index [i] on:
    it returns; up to [i] the destination is as before; from [i] on each
    field holds the source's value if the iteration overwrote it and its
    old value if not; and the flag is set when it was set before or some
    iteration overwrote its field. *)
Lemma copyFields_same_type t src ign n : ∀ i dst changed,
  n + i = length t → length dst = length t → length src = length t →
  ∃ changed' dst',
    copyFields V DeepEqual n i t dst (Val (StructVal t src)) ign changed
      = Returns (changed', dst')
    ∧ length dst' = length t
    ∧ (∀ j, j < i → dst' !! j = dst !! j)
    ∧ (∀ j tf x y, i ≤ j → t !! j = Some tf → dst !! j = Some x →
         src !! j = Some y →
         dst' !! j = Some (if copies V DeepEqual ign tf x y then y else x))
    ∧ (changed' = true ↔
         changed = true
         ∨ ∃ j tf x y, i ≤ j ∧ t !! j = Some tf ∧ dst !! j = Some x
                       ∧ src !! j = Some y
                       ∧ copies V DeepEqual ign tf x y = true).
Proof.
  induction n as [|n IH]; intros i dst changed Hn Hdst Hsrc.
  { exists changed, dst. simpl. split; [done|]. split; [done|].
    split; [done|]. split.
    - intros j tf x y Hj Htf. apply lookup_lt_Some in Htf. lia.
    - split; [by left|]. intros [?|(j & tf & x & y & Hj & Htf & _)]; [done|].
      apply lookup_lt_Some in Htf. lia. }
  destruct (lookup_lt_is_Some_2 t i) as [tf Htf]; [lia|].
  destruct (lookup_lt_is_Some_2 dst i) as [x Hx]; [lia|].
  destruct (lookup_lt_is_Some_2 src i) as [y Hy]; [lia|].
  simpl. rewrite Hx, Hy, Htf. simpl.
  unfold Interface, CanSet, CanInterface.
  destruct (reflect.Exported tf) eqn:Hexp; simpl.
  2:{ (* an unexported field: skipped *)
      field_kept IH i dst changed ltac:(rewrite Hexp). }
  destruct (isIgnoredField ign (reflect.Name tf)) eqn:Hign; simpl.
  { (* an ignored field: skipped *)
    field_kept IH i dst changed ltac:(rewrite Hexp, Hign). }
  destruct (DeepEqual x y) eqn:Heq; simpl.
  { (* deeply equal: left as it is *)
    field_kept IH i dst changed ltac:(rewrite Hexp, Hign, Heq). }
  (* not deeply equal: overwritten *)
  destruct (IH (S i) (<[i:=y]> dst) true)
    as (c' & d' & Hrun & Hlen & Hpre & Hpost & Hc);
    [lia|by rewrite length_insert|done|].
  exists c', d'. split; [done|]. split; [done|]. split; [|split].
  - intros j Hj. rewrite Hpre by lia. apply list_lookup_insert_ne. lia.
  - intros j tf' x' y' Hj Htf' Hx' Hy'.
    destruct (decide (j = i)) as [->|Hne].
    + rewrite Hpre by lia. simplify_eq. unfold copies.
      rewrite Hexp, Hign, Heq. simpl. apply list_lookup_insert_eq. lia.
    + apply Hpost; [lia|done| |done].
      by rewrite list_lookup_insert_ne by done.
  - rewrite Hc. split; [intros _|by left].
    right. exists i, tf, x, y. repeat split; [lia|done..|].
    unfold copies. by rewrite Hexp, Hign, Heq.
Qed.

Lemma CopyModel_records t a b ign :
  CopyModel V DeepEqual (record t a) (record t b) ign
  = copyFields V DeepEqual (length t) 0 t a (Val (StructVal t b)) ign false.
Proof. reflexivity. Qed.

(** [CopyModel] on two records of the same type: it returns, and each
    field of the destination holds the source's value if the test
    [copies] held for it and its old value if not. *)
Lemma CopyModel_same_type t A B ign :
  length A = length t → length B = length t →
  ∃ changed A',
    CopyModel V DeepEqual (record t A) (record t B) ign
      = Returns (changed, A')
    ∧ length A' = length t
    ∧ (∀ j tf x y, t !! j = Some tf → A !! j = Some x → B !! j = Some y →
         A' !! j = Some (if copies V DeepEqual ign tf x y then y else x))
    ∧ (changed = true ↔
         ∃ j tf x y, t !! j = Some tf ∧ A !! j = Some x ∧ B !! j = Some y
                     ∧ copies V DeepEqual ign tf x y = true).
Proof.
  intros HA HB. rewrite CopyModel_records.
  destruct (copyFields_same_type t B ign (length t) 0 A false)
    as (c' & A' & Hrun & Hlen & _ & Hpost & Hc); [lia|done|done|].
  exists c', A'. split; [done|]. split; [done|]. split.
  - intros j tf x y. apply Hpost. lia.
  - rewrite Hc. split.
    + intros [?|(j & tf & x & y & _ & H)]; [done|]. by exists j, tf, x, y.
    + intros (j & tf & x & y & H). right. exists j, tf, x, y.
      split; [lia|done].
Qed.

(** When the test [copies] fails for every field, nothing is written and
    the result is [false]. *)
Lemma CopyModel_nothing_copied t A B ign :
  length A = length t → length B = length t →
  (∀ j tf x y, t !! j = Some tf → A !! j = Some x → B !! j = Some y →
     copies V DeepEqual ign tf x y = false) →
  CopyModel V DeepEqual (record t A) (record t B) ign = Returns (false, A).
Proof.
  intros HA HB Hnone.
  destruct (CopyModel_same_type t A B ign HA HB)
    as (changed & A' & -> & Hlen & Hpost & Hc).
  assert (changed = false) as ->.
  { destruct changed; [|done].
    destruct (proj1 Hc eq_refl) as (j & tf & x & y & Htf & Hx & Hy & Hcp).
    by rewrite (Hnone j tf x y) in Hcp. }
  f_equal. f_equal. apply list_eq. intros j.
  destruct (decide (j < length t)) as [Hj|Hj].
  - destruct (lookup_lt_is_Some_2 t j) as [tf Htf]; [lia|].
    destruct (lookup_lt_is_Some_2 A j) as [x Hx]; [lia|].
    destruct (lookup_lt_is_Some_2 B j) as [y Hy]; [lia|].
    by rewrite (Hpost j tf x y), (Hnone j tf x y), Hx.
  - rewrite !lookup_ge_None_2; [done|lia..].
Qed.




(** C8. A call in which either argument is a pointer to a pointer never
    returns a value: it panics, and when both arguments are non-nil
    pointers the panic is the one of the double-pointer check.  When both
    arguments are pointers to records of the same type the call returns a
    value, so that check (like every other panic) is not reached. *)
Theorem CopyModel_double_pointer ign :
  (∀ m1 m2 : object V,
     doublePointer m1 ∨ doublePointer m2 →
     isPanic (CopyModel V DeepEqual m1 m2 ign))
  ∧ (∀ o1 o2 : object V,
       doublePointer (PtrTo o1) ∨ doublePointer (PtrTo o2) →
       CopyModel V DeepEqual (PtrTo o1) (PtrTo o2) ign
       = Panics (PanicString double_pointer_message))
  ∧ (∀ t A B,
       length A = length t → length B = length t →
       ¬ doublePointer (record t A) ∧ ¬ doublePointer (record t B)
       ∧ ∃ changed A',
           CopyModel V DeepEqual (record t A) (record t B) ign
           = Returns (changed, A')).
Proof.
  split; [|split].
  - intros m1 m2 [H|H].
    + destruct m1 as [| |[| | |]|]; try done;
        destruct m2 as [| |[| | |]|]; done.
    + destruct m2 as [| |[| | |]|]; try done;
        destruct m1 as [| |[| | |]|]; done.
  - intros o1 o2 [H|H].
    + destruct o1; try done; destruct o2; done.
    + destruct o2; try done; destruct o1; done.
  - intros t A B HA HB. split; [by intros []|]. split; [by intros []|].
    destruct (CopyModel_same_type t A B ign HA HB)
      as (changed & A' & Hrun & _). eauto.
Qed.

End CopyModel_properties.

(** *** The utility on Go values *)







Lemma CopyModel_double_pointer_witness :
  isPanic (CopyModel GoValue.value GoValue.DeepEqual
             (PtrTo (record entry_type entry_A)) OtherVal [])
  ∧ CopyModel GoValue.value GoValue.DeepEqual
      (PtrTo (record entry_type entry_A)) (record entry_type entry_B) []
    = Panics (PanicString double_pointer_message)
  ∧ ∃ changed A',
      CopyModel GoValue.value GoValue.DeepEqual
        (record entry_type entry_A) (record entry_type entry_B) []
      = Returns (changed, A').
Proof.
  destruct (CopyModel_double_pointer GoValue.value GoValue.DeepEqual [])
    as (Hhalts & Hdouble & Hsingle).
  split; [|split].
  - apply Hhalts. left. exact I.
  - apply (Hdouble (record entry_type entry_A) (StructVal entry_type entry_B)).
    left. exact I.
  - apply (Hsingle entry_type entry_A entry_B); reflexivity.
Defined.

(** ** Query construction *)

Lemma foldl_insert_lookup (v : Z) (l : list string) name :
  ∀ sel : gmap string Z,
    name ∈ l → foldl (λ sel s, <[s := v]> sel) sel l !! name = Some v.
Proof.
  induction l as [|x l IH] using rev_ind; intros sel Hin.
  - by apply elem_of_nil in Hin.
  - rewrite foldl_app. simpl.
    destruct (decide (x = name)) as [->|Hne];
      [by rewrite lookup_insert_eq|].
    rewrite lookup_insert_ne by done. apply IH.
    apply elem_of_app in Hin as [?|Hx]; [done|].
    by apply list_elem_of_singleton in Hx.
Qed.

(** A field in the omitted list is marked excluded in the projection map,
    whatever the selected list holds. *)
Lemma selOf_omitted {bsonM : Type} (q0 : Query bsonM) name :
  name ∈ OmittedFields q0 → selOf q0 !! name = Some (-1)%Z.
Proof. intros Hin. unfold selOf. by apply foldl_insert_lookup. Qed.

Section Find_properties.

Variable Session : Type.
Variable bsonM : Type.

(** C7. [Find] with no query gives a cursor whose store query has no
    filter, no sort, no projection and no limit; called twice, on the
    same collection or on any two, it gives the same unconstrained store
    query. *)
Theorem Find_nil_unconstrained (c1 c2 : collection Session) :
  q (Find c1 (None : option (Query bsonM))) = mkMgoQuery None None None None
  ∧ s (Find c1 (None : option (Query bsonM))) = Database_Session _ (c _ c1)
  ∧ Find c1 (None : option (Query bsonM)) = Find c1 None
  ∧ q (Find c1 (None : option (Query bsonM)))
    = q (Find c2 (None : option (Query bsonM))).
Proof. done. Qed.

(** C9. When a field name stands both in [SelectedFields] and in
    [OmittedFields], the projection map [Find] builds, and hands to the
    cursor, marks it excluded. *)
Theorem Find_omitted_wins (c0 : collection Session) (q0 : Query bsonM) name :
  name ∈ SelectedFields q0 → name ∈ OmittedFields q0 →
  selOf q0 !! name = Some (-1)%Z
  ∧ projection (q (Find c0 (Some q0))) = Some (selOf q0).
Proof.
  intros _ Hin. pose proof (selOf_omitted q0 name Hin) as Hsel.
  split; [done|]. unfold Find.
  assert ((0 <? size (selOf q0)) = true) as ->.
  { apply Nat.ltb_lt. destruct (size (selOf q0)) eqn:Hsize; [|lia].
    apply map_size_empty_iff in Hsize. rewrite Hsize in Hsel.
    by rewrite lookup_empty in Hsel. }
  by repeat case_match.
Qed.

End Find_properties.

Lemma Find_omitted_wins_witness :
  selOf (mkQuery tt "" false ["title"; "guid"] ["guid"] 0) !! "guid"
  = Some (-1)%Z
  ∧ projection
      (q (Find (mkCollection (mkMgoCollection tt "feeds")
                             (newModelInfo title_author_model))
               (Some (mkQuery tt "" false ["title"; "guid"] ["guid"] 0))))
    = Some (selOf (mkQuery tt "" false ["title"; "guid"] ["guid"] 0)).
Proof.
  apply (Find_omitted_wins unit unit
           (mkCollection (mkMgoCollection tt "feeds")
                         (newModelInfo title_author_model))
           (mkQuery tt "" false ["title"; "guid"] ["guid"] 0) "guid").
  - apply list_elem_of_In. simpl. auto.
  - apply list_elem_of_In. simpl. auto.
Defined.

(** ** More on the annotation parser *)

Lemma storeTrue_getFlag r p ti :
  getFlag r (storeTrue p ti) = getFlag r ti || bool_decide (p = r).
Proof. destruct p, r; simpl; by rewrite ?orb_false_r, ?orb_true_r. Qed.

Lemma storeName_getFlag r p v ti :
  getFlag r (storeName p v ti) = getFlag r ti.
Proof. by destruct p, r. Qed.

Lemma applyOpts_getFlag r s opts ti :
  getFlag r (applyOpts s opts ti)
  = getFlag r ti
    || existsb (λ opt, String.eqb s (Key_ opt) && bool_decide (Flag opt = r))
         opts.
Proof.
  revert ti. induction opts as [|opt opts IH]; intros ti; simpl.
  { by rewrite orb_false_r. }
  rewrite IH. destruct (String.eqb s (Key_ opt)); simpl; [|done].
  by rewrite storeTrue_getFlag, orb_assoc.
Qed.

Lemma applySplit_getFlag r pieces opts ti :
  getFlag r (applySplit pieces opts ti)
  = getFlag r ti
    || existsb (λ s, existsb (λ opt, String.eqb s (Key_ opt)
                                     && bool_decide (Flag opt = r)) opts)
         pieces.
Proof.
  revert ti. induction pieces as [|s pieces IH]; intros ti; simpl.
  { by rewrite orb_false_r. }
  by rewrite IH, applyOpts_getFlag, orb_assoc.
Qed.

(** What one call of [parseTag] does to a flag: it is set afterwards when
    it was set before, or when the annotation names the field and one of
    the pieces after the name is the key of an option that points to the
    flag. *)
Lemma parseTag_getFlag r tag tagName name opts ti :
  getFlag r (parseTag tag tagName name opts ti)
  = getFlag r ti
    || (negb (String.eqb (reflect.Get tag tagName) "-")
        && negb (String.eqb (reflect.Get tag tagName) "")
        && existsb (λ s, existsb (λ opt, String.eqb s (Key_ opt)
                                         && bool_decide (Flag opt = r)) opts)
             (tl (Split (reflect.Get tag tagName)))).
Proof.
  unfold parseTag.
  destruct (negb (String.eqb (reflect.Get tag tagName) "-")
            && negb (String.eqb (reflect.Get tag tagName) "")); simpl;
    [|by rewrite orb_false_r].
  destruct (Nat.ltb_spec 1 (length (Split (reflect.Get tag tagName))))
    as [Hlen|Hlen].
  - by rewrite applySplit_getFlag, storeName_getFlag.
  - rewrite storeName_getFlag.
    destruct (Split (reflect.Get tag tagName)) as [|piece [|? ?]];
      simpl in *; try lia; by rewrite orb_false_r.
Qed.

Lemma existsb_one_option r key p (pieces : list string) :
  existsb (λ s, existsb (λ opt, String.eqb s (Key_ opt)
                                && bool_decide (Flag opt = r))
                  [mkOption key p]) pieces
  = bool_decide (p = r) && existsb (λ s, String.eqb s key) pieces.
Proof.
  induction pieces as [|s pieces IH]; simpl in *; [by rewrite andb_false_r|].
  rewrite IH. destruct (String.eqb s key), (bool_decide (p = r)); done.
Qed.

Lemma existsb_two_options r key1 p1 key2 p2 (pieces : list string) :
  existsb (λ s, existsb (λ opt, String.eqb s (Key_ opt)
                                && bool_decide (Flag opt = r))
                  [mkOption key1 p1; mkOption key2 p2]) pieces
  = bool_decide (p1 = r) && existsb (λ s, String.eqb s key1) pieces
    || bool_decide (p2 = r) && existsb (λ s, String.eqb s key2) pieces.
Proof.
  induction pieces as [|s pieces IH]; simpl in *; [by rewrite !andb_false_r|].
  rewrite IH.
  destruct (String.eqb s key1), (String.eqb s key2),
    (bool_decide (p1 = r)), (bool_decide (p2 = r)); simpl;
    by rewrite ?orb_true_r, ?orb_false_r.
Qed.

(** The four flags of a parsed annotation, in closed form.  The external
    omit-if-empty flag is set by the option [omitempty] of the external
    annotation and also by that of the storage annotation; the storage
    flag is never set; [unique] and [text] of the index annotation set
    their flags.  Options are looked for after the name only, any other
    option is passed over, and order and repetition make no difference. *)
Theorem parseFieldTag_flags tag :
  JSONOmitEmpty (parseFieldTag tag)
  = hasOption (reflect.Get tag "json") "omitempty"
    || hasOption (reflect.Get tag "bson") "omitempty"
  ∧ BSONOmitEmpty (parseFieldTag tag) = false
  ∧ IndexUnique (parseFieldTag tag)
    = hasOption (reflect.Get tag "index") "unique"
  ∧ IndexText (parseFieldTag tag)
    = hasOption (reflect.Get tag "index") "text".
Proof.
  assert (Hflag : ∀ r, getFlag r (parseFieldTag tag)
    = bool_decide (RefJSONOmitEmpty = r)
        && hasOption (reflect.Get tag "json") "omitempty"
      || bool_decide (RefJSONOmitEmpty = r)
         && hasOption (reflect.Get tag "bson") "omitempty"
      || (bool_decide (RefIndexUnique = r)
          && hasOption (reflect.Get tag "index") "unique"
          || bool_decide (RefIndexText = r)
             && hasOption (reflect.Get tag "index") "text")).
  { intros r. unfold parseFieldTag.
    set (t3 := parseTag tag "index" _ _ _).
    assert (getFlag r
              (if negb (String.eqb (reflect.Get tag "index") "")
                  && String.eqb (IndexName t3) ""
               then storeName RefIndexName (BSONName t3) t3 else t3)
            = getFlag r t3) as ->.
    { case_match; [apply storeName_getFlag|done]. }
    unfold t3. rewrite !parseTag_getFlag.
    rewrite !existsb_one_option, existsb_two_options. unfold hasOption.
    destruct r; simpl;
      repeat (destruct (negb _ && negb _); simpl);
      by rewrite ?orb_false_r, ?andb_false_r. }
  pose proof (Hflag RefJSONOmitEmpty) as H1.
  pose proof (Hflag RefBSONOmitEmpty) as H2.
  pose proof (Hflag RefIndexUnique) as H3.
  pose proof (Hflag RefIndexText) as H4.
  simpl in H1, H2, H3, H4.
  rewrite H1, H2, H3, H4. by rewrite ?orb_false_r.
Qed.

(** An annotation that is exactly [-] gives its namespace no name, but
    [-] followed by options names the field [-]: only the whole value is
    compared with [-]. *)
Theorem parseFieldTag_dash tag :
  (reflect.Get tag "json" = "-" → JSONName (parseFieldTag tag) = "")
  ∧ (reflect.Get tag "bson" = "-" → BSONName (parseFieldTag tag) = "")
  ∧ (∀ opts, reflect.Get tag "json" = ("-," ++ opts)%string →
       JSONName (parseFieldTag tag) = "-")
  ∧ (∀ opts, reflect.Get tag "bson" = ("-," ++ opts)%string →
       BSONName (parseFieldTag tag) = "-").
Proof.
  destruct (parseFieldTag_names tag) as (-> & -> & _).
  repeat split.
  - by intros ->.
  - by intros ->.
  - intros opts ->. unfold annotationName.
    change ("-," ++ opts)%string with ("-" ++ String ","%char opts)%string.
    rewrite (name_options_named "-" opts).
    by rewrite (Split_name_options "-" opts).
  - intros opts ->. unfold annotationName.
    change ("-," ++ opts)%string with ("-" ++ String ","%char opts)%string.
    rewrite (name_options_named "-" opts).
    by rewrite (Split_name_options "-" opts).
Qed.

Lemma parseFieldTag_dash_witness :
  JSONName (parseFieldTag [("json", "-"); ("bson", "-,omitempty")]) = ""
  ∧ BSONName (parseFieldTag [("json", "-"); ("bson", "-,omitempty")]) = "-".
Proof.
  destruct (parseFieldTag_dash [("json", "-"); ("bson", "-,omitempty")])
    as (Hjson & _ & _ & Hbson).
  split; [apply Hjson; reflexivity | apply (Hbson "omitempty"); reflexivity].
Defined.

Lemma Split_head_no_comma s : hasComma (hd "" (Split s)) = false.
Proof.
  induction s as [|c s IH]; simpl; [done|].
  destruct (Ascii.eqb c ","%char) eqn:Hc; simpl; [done|].
  destruct (Split s) as [|piece pieces]; simpl in *; by rewrite Hc.
Qed.

Lemma annotationName_no_comma info : hasComma (annotationName info) = false.
Proof.
  unfold annotationName. case_match; [apply Split_head_no_comma|done].
Qed.

(** None of the three names the parser yields contains a comma. *)
Theorem parseFieldTag_names_no_comma tag :
  hasComma (JSONName (parseFieldTag tag)) = false
  ∧ hasComma (BSONName (parseFieldTag tag)) = false
  ∧ hasComma (IndexName (parseFieldTag tag)) = false.
Proof.
  destruct (parseFieldTag_names tag) as (-> & -> & ->).
  repeat split; try apply annotationName_no_comma.
  case_match; apply annotationName_no_comma.
Qed.

(** For a field with a storage name, the index name is empty exactly when
    the index annotation is empty or absent: every other index
    annotation, [-] included, makes the field an indexed one. *)
Theorem parseFieldTag_indexed_iff tag :
  BSONName (parseFieldTag tag) ≠ "" →
  IndexName (parseFieldTag tag) = "" ↔ reflect.Get tag "index" = "".
Proof.
  destruct (parseFieldTag_names tag) as (_ & -> & ->). intros Hbson.
  destruct (String.eqb_spec (reflect.Get tag "index") "") as [->|Hne];
    simpl; [done|].
  destruct (String.eqb_spec (annotationName (reflect.Get tag "index")) "");
    split; done.
Qed.

Lemma parseFieldTag_indexed_iff_witness :
  IndexName (parseFieldTag [("json", "g"); ("bson", "guid")]) = ""
  ↔ reflect.Get [("json", "g"); ("bson", "guid")] "index" = "".
Proof.
  apply (parseFieldTag_indexed_iff [("json", "g"); ("bson", "guid")]).
  discriminate.
Defined.

(** ** More on the model descriptor builder *)

Lemma newModelInfo_field_kept info f :
  kept (parseFieldTag (reflect.Tag f)) →
  Fields (newModelInfo_field info f)
    = Fields info ++ [parseFieldTag (reflect.Tag f)]
  ∧ jsonNameMap (newModelInfo_field info f)
    = <[JSONName (parseFieldTag (reflect.Tag f)) := length (Fields info)]>
        (jsonNameMap info)
  ∧ bsonNameMap (newModelInfo_field info f)
    = <[BSONName (parseFieldTag (reflect.Tag f)) := length (Fields info)]>
        (bsonNameMap info).
Proof.
  intros [HJ HB]. unfold newModelInfo_field.
  set (tag := parseFieldTag (reflect.Tag f)) in *.
  destruct (String.eqb_spec (JSONName tag) ""); [done|].
  destruct (String.eqb_spec (BSONName tag) ""); [done|]. simpl.
  assert (Hlen : length (Fields info ++ [tag]) - 1 = length (Fields info))
    by (rewrite length_app; simpl; lia).
  repeat case_match; simpl; by rewrite Hlen.
Qed.

Lemma newModelInfo_field_not_kept info f :
  ¬ kept (parseFieldTag (reflect.Tag f)) → newModelInfo_field info f = info.
Proof.
  intros Hnot. apply newModelInfo_field_skip.
  destruct (decide (JSONName (parseFieldTag (reflect.Tag f)) = ""));
    [by left|].
  destruct (decide (BSONName (parseFieldTag (reflect.Tag f)) = ""));
    [by right|].
  by destruct Hnot.
Qed.

Lemma Fields_newModelInfo model :
  Fields (newModelInfo model) = filter kept (parsedFields model).
Proof.
  unfold parsedFields.
  induction model as [|f model IH] using rev_ind; [done|].
  rewrite newModelInfo_snoc, fmap_app, filter_app. simpl.
  destruct (decide (kept (parseFieldTag (reflect.Tag f)))) as [Hk|Hk].
  - destruct (newModelInfo_field_kept (newModelInfo model) f Hk) as (-> & _).
    rewrite IH. f_equal. by rewrite filter_cons_True.
  - rewrite (newModelInfo_field_not_kept _ f Hk), IH.
    by rewrite filter_cons_False, app_nil_r.
Qed.

(** The field list of a descriptor: the parsed annotations of the fields
    that have both names, in declaration order, and nothing else. *)
Theorem newModelInfo_Fields model :
  Fields (newModelInfo model) = filter kept (parsedFields model)
  ∧ (∀ fi, fi ∈ Fields (newModelInfo model) ↔
       kept fi ∧ ∃ f, f ∈ model ∧ fi = parseFieldTag (reflect.Tag f)).
Proof.
  split; [apply Fields_newModelInfo|]. intros fi.
  rewrite Fields_newModelInfo, list_elem_of_filter. unfold parsedFields.
  rewrite list_elem_of_fmap. split.
  - intros [Hk (f & -> & Hf)]. split; [done|]. by exists f.
  - intros [Hk (f & Hf & ->)]. split; [done|]. by exists f.
Qed.

(** Appending a field to a list moves the last position of its name to
    the new end and leaves the last position of every other name. *)
Lemma lastWith_snoc proj fields field name i :
  lastWith proj (fields ++ [field]) name i ↔
    if decide (proj field = name) then i = length fields
    else lastWith proj fields name i.
Proof.
  unfold lastWith. case_decide as Hname.
  - split.
    + intros [(fi & Hfi & Hproj) Hlast].
      apply lookup_snoc_Some in Hfi as [[Hlt _]|[-> _]]; [|done].
      destruct (Hlast (length fields) field Hlt); [|done].
      apply lookup_snoc_Some. by right.
    + intros ->. split.
      * exists field. split; [|done]. apply lookup_snoc_Some. by right.
      * intros j fj Hj Hfj. apply lookup_lt_Some in Hfj.
        rewrite length_app in Hfj. simpl in Hfj. lia.
  - split.
    + intros [(fi & Hfi & Hproj) Hlast].
      apply lookup_snoc_Some in Hfi as [[Hlt Hfi]|[-> <-]]; [|done].
      split; [by exists fi|].
      intros j fj Hj Hfj. apply (Hlast j fj Hj).
      by apply lookup_app_l_Some.
    + intros [(fi & Hfi & Hproj) Hlast]. split.
      * exists fi. split; [|done]. by apply lookup_app_l_Some.
      * intros j fj Hj [[_ Hfj]|[-> <-]]%lookup_snoc_Some; [|done].
        by apply (Hlast j fj).
Qed.

Lemma newModelInfo_maps_last model name i :
  (jsonNameMap (newModelInfo model) !! name = Some i
   ↔ lastWith JSONName (Fields (newModelInfo model)) name i)
  ∧ (bsonNameMap (newModelInfo model) !! name = Some i
     ↔ lastWith BSONName (Fields (newModelInfo model)) name i).
Proof.
  revert name i. induction model as [|f model IH] using rev_ind;
    intros name i.
  { simpl. rewrite lookup_empty. unfold lastWith.
    split; (split; [done|]); by intros [(fi & Hfi & _) _]. }
  rewrite newModelInfo_snoc.
  destruct (decide (kept (parseFieldTag (reflect.Tag f)))) as [Hk|Hk].
  - destruct (newModelInfo_field_kept (newModelInfo model) f Hk)
      as (-> & -> & ->).
    rewrite !lastWith_snoc, !lookup_insert.
    destruct (IH name i) as [IHj IHb].
    split; case_decide; try done; split; congruence.
  - rewrite (newModelInfo_field_not_kept _ f Hk). apply IH.
Qed.

(** The name maps are last-write-wins: a name leads to the position of
    the last kept field that carries it, in the external map by external
    name and in the storage map by storage name. *)
Theorem newModelInfo_name_maps_last_wins model name i :
  (jsonNameMap (newModelInfo model) !! name = Some i
   ↔ lastWith JSONName (filter kept (parsedFields model)) name i)
  ∧ (bsonNameMap (newModelInfo model) !! name = Some i
     ↔ lastWith BSONName (filter kept (parsedFields model)) name i).
Proof. rewrite <- Fields_newModelInfo. apply newModelInfo_maps_last. Qed.

Lemma newModelInfo_maps_total model fi :
  fi ∈ Fields (newModelInfo model) →
  is_Some (jsonNameMap (newModelInfo model) !! JSONName fi)
  ∧ is_Some (bsonNameMap (newModelInfo model) !! BSONName fi).
Proof.
  induction model as [|f model IH] using rev_ind.
  { by intros ?%elem_of_nil. }
  rewrite newModelInfo_snoc.
  destruct (decide (kept (parseFieldTag (reflect.Tag f)))) as [Hk|Hk].
  - destruct (newModelInfo_field_kept (newModelInfo model) f Hk)
      as (-> & -> & ->).
    rewrite !lookup_insert_is_Some.
    intros [Hin | ->%list_elem_of_singleton]%elem_of_app.
    + destruct (IH Hin) as [HJ HB]. split.
      * destruct (decide (JSONName (parseFieldTag (reflect.Tag f))
                          = JSONName fi)); auto.
      * destruct (decide (BSONName (parseFieldTag (reflect.Tag f))
                          = BSONName fi)); auto.
    + auto.
  - by rewrite (newModelInfo_field_not_kept _ f Hk).
Qed.

(** Looking a field up by its external name.  A hit gives a descriptor of
    the model that carries the name and has both names; the empty name is
    never found.  A miss gives the zero descriptor, and happens only when
    no kept field carries the name. *)
Theorem LookupAPIName_spec model name :
  (∀ fi, LookupAPIName (newModelInfo model) name = (fi, true) →
     fi ∈ Fields (newModelInfo model)
     ∧ JSONName fi = name ∧ name ≠ "" ∧ BSONName fi ≠ "")
  ∧ (∀ fi, LookupAPIName (newModelInfo model) name = (fi, false) →
       fi = FieldInfo_zero
       ∧ ∀ fj, fj ∈ Fields (newModelInfo model) → JSONName fj ≠ name).
Proof.
  unfold LookupAPIName, lookupName.
  destruct (newModelInfo_entries_kept model) as (Hjson & _ & Hall).
  destruct (jsonNameMap (newModelInfo model) !! name) as [i|] eqn:Hi.
  - split; [|done]. intros fi [= <-].
    destruct (Hjson name i Hi) as (fi & Hfi & <-). rewrite Hfi. simpl.
    destruct (Forall_lookup_1 _ _ _ _ Hall Hfi) as [HJ HB].
    split; [by eapply list_elem_of_lookup_2|done].
  - split; [done|]. intros fi [= <-]. split; [done|].
    intros fj Hfj <-.
    destruct (newModelInfo_maps_total model fj Hfj) as [[j Hj] _].
    by rewrite Hi in Hj.
Qed.

(** Looking a field up by its storage name: as by its external name. *)
Theorem LookupDBName_spec model name :
  (∀ fi, LookupDBName (newModelInfo model) name = (fi, true) →
     fi ∈ Fields (newModelInfo model)
     ∧ BSONName fi = name ∧ name ≠ "" ∧ JSONName fi ≠ "")
  ∧ (∀ fi, LookupDBName (newModelInfo model) name = (fi, false) →
       fi = FieldInfo_zero
       ∧ ∀ fj, fj ∈ Fields (newModelInfo model) → BSONName fj ≠ name).
Proof.
  unfold LookupDBName, lookupName.
  destruct (newModelInfo_entries_kept model) as (_ & Hbson & Hall).
  destruct (bsonNameMap (newModelInfo model) !! name) as [i|] eqn:Hi.
  - split; [|done]. intros fi [= <-].
    destruct (Hbson name i Hi) as (fi & Hfi & <-). rewrite Hfi. simpl.
    destruct (Forall_lookup_1 _ _ _ _ Hall Hfi) as [HJ HB].
    split; [by eapply list_elem_of_lookup_2|done].
  - split; [done|]. intros fi [= <-]. split; [done|].
    intros fj Hfj <-.
    destruct (newModelInfo_maps_total model fj Hfj) as [_ [j Hj]].
    by rewrite Hi in Hj.
Qed.

Lemma LookupAPIName_spec_witness :
  (mkFieldInfo "author" false "author" false "title_author" false false
     ∈ Fields (newModelInfo title_author_model))
  ∧ (∀ fj, fj ∈ Fields (newModelInfo title_author_model) →
       JSONName fj ≠ "guid").
Proof.
  destruct (LookupAPIName_spec title_author_model "author") as [Hhit _].
  destruct (LookupAPIName_spec title_author_model "guid") as [_ Hmiss].
  split.
  - apply (Hhit (mkFieldInfo "author" false "author" false "title_author"
                             false false)).
    vm_compute. reflexivity.
  - apply (Hmiss FieldInfo_zero). vm_compute. reflexivity.
Defined.

Lemma LookupDBName_spec_witness :
  (mkFieldInfo "title" false "title" false "title_author" true false
     ∈ Fields (newModelInfo title_author_model))
  ∧ (∀ fj, fj ∈ Fields (newModelInfo title_author_model) →
       BSONName fj ≠ "_id").
Proof.
  destruct (LookupDBName_spec title_author_model "title") as [Hhit _].
  destruct (LookupDBName_spec title_author_model "_id") as [_ Hmiss].
  split.
  - apply (Hhit (mkFieldInfo "title" false "title" false "title_author"
                             true false)).
    vm_compute. reflexivity.
  - apply (Hmiss FieldInfo_zero). vm_compute. reflexivity.
Defined.

(** Registering a field and looking it up again.  When the kept fields
    have pairwise different external names, each one is found under its
    external name, at its own position in the field list; and the same
    for storage names. *)
Theorem newModelInfo_lookup_round_trip model i fi :
  Fields (newModelInfo model) !! i = Some fi →
  (NoDup (JSONName <$> Fields (newModelInfo model)) →
     jsonNameMap (newModelInfo model) !! JSONName fi = Some i
     ∧ LookupAPIName (newModelInfo model) (JSONName fi) = (fi, true))
  ∧ (NoDup (BSONName <$> Fields (newModelInfo model)) →
       bsonNameMap (newModelInfo model) !! BSONName fi = Some i
       ∧ LookupDBName (newModelInfo model) (BSONName fi) = (fi, true)).
Proof.
  intros Hfi. split; intros Hnodup.
  - assert (Hi : jsonNameMap (newModelInfo model) !! JSONName fi = Some i).
    { apply newModelInfo_maps_last. split; [by exists fi|].
      intros j fj Hlt Hfj Heq.
      assert (i = j); [|lia].
      apply (NoDup_lookup _ i j (JSONName fi) Hnodup);
        rewrite list_lookup_fmap;
        [by rewrite Hfi|rewrite Hfj; simpl; by rewrite Heq]. }
    split; [done|]. unfold LookupAPIName, lookupName. by rewrite Hi, Hfi.
  - assert (Hi : bsonNameMap (newModelInfo model) !! BSONName fi = Some i).
    { apply newModelInfo_maps_last. split; [by exists fi|].
      intros j fj Hlt Hfj Heq.
      assert (i = j); [|lia].
      apply (NoDup_lookup _ i j (BSONName fi) Hnodup);
        rewrite list_lookup_fmap;
        [by rewrite Hfi|rewrite Hfj; simpl; by rewrite Heq]. }
    split; [done|]. unfold LookupDBName, lookupName. by rewrite Hi, Hfi.
Qed.

Lemma firstIndex_find name model :
  firstIndex name model
  = (λ p, mkIndex name [BSONName p.2] (IndexUnique p.2))
      <$> list_find (λ fi, IndexName fi = name)
            (filter kept (parsedFields model)).
Proof.
  unfold parsedFields.
  induction model as [|f model IH]; simpl; [done|].
  set (tag := parseFieldTag (reflect.Tag f)).
  destruct (String.eqb_spec (JSONName tag) "") as [HJ|HJ]; simpl.
  { rewrite filter_cons_False; [done|]. by intros [? _]. }
  destruct (String.eqb_spec (BSONName tag) "") as [HB|HB]; simpl.
  { rewrite filter_cons_False; [done|]. by intros [_ ?]. }
  rewrite filter_cons_True by done. csimpl.
  destruct (String.eqb_spec (IndexName tag) name) as [Hn|Hn].
  - by rewrite decide_True.
  - rewrite decide_False by done. rewrite IH, <- option_fmap_compose.
    by destruct (list_find _ _) as [[??]|].
Qed.

(** The index map against the field list.  An index definition stands
    under a name exactly when the name is not empty and some kept field
    carries it as its index name; the definition is then made from the
    first such field: the name, that field's storage name as the one
    key, that field's uniqueness flag. *)
Theorem newModelInfo_index_first_field model name idx :
  Indexes (newModelInfo model) !! name = Some idx ↔
    name ≠ ""
    ∧ ∃ i first,
        firstWithIndex (filter kept (parsedFields model)) name i first
        ∧ idx = mkIndex name [BSONName first] (IndexUnique first).
Proof.
  rewrite newModelInfo_Indexes, firstIndex_find. unfold firstWithIndex.
  destruct (String.eqb_spec name "") as [->|Hne].
  { split; [done|]. by intros [? _]. }
  rewrite fmap_Some. split.
  - intros ([i first] & Hfind%list_find_Some & ->). split; [done|].
    exists i, first. simpl. destruct Hfind as (? & ? & ?). eauto.
  - intros (_ & i & first & (Hi & Hname & Hfirst) & ->).
    exists (i, first). split; [|done]. apply list_find_Some. eauto.
Qed.

(** Every kept field with an index name has an index definition under
    that name. *)
Theorem newModelInfo_indexed_field_has_index model fi :
  fi ∈ Fields (newModelInfo model) → IndexName fi ≠ "" →
  ∃ idx, Indexes (newModelInfo model) !! IndexName fi = Some idx
         ∧ Name idx = IndexName fi.
Proof.
  rewrite Fields_newModelInfo. intros Hin Hne.
  rewrite newModelInfo_Indexes, firstIndex_find.
  destruct (String.eqb_spec (IndexName fi) ""); [done|].
  destruct (list_find_elem_of (λ fj, IndexName fj = IndexName fi) _ fi Hin)
    as [[i first] Hfind]; [done|].
  rewrite Hfind. simpl. eauto.
Qed.

Lemma newModelInfo_lookup_round_trip_witness :
  jsonNameMap (newModelInfo title_author_model) !! "author" = Some 1
  ∧ LookupAPIName (newModelInfo title_author_model) "author"
    = (mkFieldInfo "author" false "author" false "title_author" false false,
       true).
Proof.
  destruct (newModelInfo_lookup_round_trip title_author_model 1
              (mkFieldInfo "author" false "author" false "title_author"
                           false false)) as [Hjson _].
  - vm_compute. reflexivity.
  - apply Hjson.
    apply (bool_decide_unpack
             (NoDup (JSONName <$> Fields (newModelInfo title_author_model)))).
    vm_compute. exact I.
Defined.

Lemma newModelInfo_indexed_field_has_index_witness :
  ∃ idx, Indexes (newModelInfo title_author_model) !! "title_author" = Some idx
         ∧ Name idx = "title_author".
Proof.
  apply (newModelInfo_indexed_field_has_index title_author_model
           (mkFieldInfo "author" false "author" false "title_author"
                        false false)).
  - apply list_elem_of_In. vm_compute. auto.
  - discriminate.
Defined.

(** ** More on the change-copy utility *)

Lemma isIgnoredField_elem ign name :
  isIgnoredField ign name = true ↔ name ∈ ign.
Proof.
  induction ign as [|s ign IH]; simpl.
  - split; [done|]. by intros ?%elem_of_nil.
  - rewrite elem_of_cons. destruct (String.eqb_spec s name) as [->|Hne].
    + split; auto.
    + rewrite IH. split; [auto|]. intros [?|?]; [congruence|done].
Qed.

Section CopyModel_more.

Variable V : Type.
Variable DeepEqual : V → V → bool.

Lemma Field_panic (v : Value V) i p :
  Field V v i = Panics p → p = ReflectPanic.
Proof.
  unfold Field. repeat case_match; try done; by intros [= <-].
Qed.

Local Opaque Field.

(** The loop raises no panic of its own: the test before [f.Set] cannot
    fail on a field that passed [CanInterface], so every panic in the
    loop is one of package reflect. *)
Lemma copyFields_panic n : ∀ i t dst s2 ign changed p,
  copyFields V DeepEqual n i t dst s2 ign changed = Panics p →
  p = ReflectPanic.
Proof.
  induction n as [|n IH]; intros i t dst s2 ign changed p; simpl; [done|].
  destruct (Field V (Val (StructVal t dst)) i) as [p1|[x tf]] eqn:Hf1; simpl.
  { intros [= <-]. by eapply Field_panic. }
  destruct (Field V s2 i) as [p2|[y tf2]] eqn:Hf2; simpl.
  { intros [= <-]. by eapply Field_panic. }
  unfold Interface, CanSet, CanInterface.
  destruct (reflect.Exported tf); simpl; [|by apply IH].
  destruct (isIgnoredField ign (reflect.Name tf)); simpl; [by apply IH|].
  destruct (reflect.Exported tf2); simpl; [|by intros [= <-]].
  destruct (DeepEqual x y); simpl; by apply IH.
Qed.

Lemma copyFields_length n : ∀ i t dst s2 ign changed c d,
  copyFields V DeepEqual n i t dst s2 ign changed = Returns (c, d) →
  length d = length dst.
Proof.
  induction n as [|n IH]; intros i t dst s2 ign changed c d; simpl.
  { by intros [= _ <-]. }
  destruct (Field V (Val (StructVal t dst)) i) as [p1|[x tf]]; simpl; [done|].
  destruct (Field V s2 i) as [p2|[y tf2]]; simpl; [done|].
  unfold Interface, CanSet, CanInterface.
  destruct (reflect.Exported tf); simpl; [|by apply IH].
  destruct (isIgnoredField ign (reflect.Name tf)); simpl; [by apply IH|].
  destruct (reflect.Exported tf2); simpl; [|done].
  destruct (DeepEqual x y); simpl; [by apply IH|].
  intros Hrun%IH. by rewrite length_insert in Hrun.
Qed.

(** The only panic with a message that [CopyModel] raises is the one of
    the double-pointer check; the panic [Cannot set field ...] is never
    raised, whatever the arguments. *)
Theorem CopyModel_panics m1 m2 ign p :
  CopyModel V DeepEqual m1 m2 ign = Panics p →
  p = ReflectPanic ∨ p = PanicString double_pointer_message.
Proof.
  unfold CopyModel, ValueOf.
  destruct m1 as [t A| |[t A| | |]|], m2 as [t2 B| |[t2 B| | |]|]; simpl;
    try (intros [= <-]; (by left) || (by right));
    intros ?%copyFields_panic; by left.
Qed.

Local Transparent Field.

(** The arguments [CopyModel] returns a value for: the first is a non-nil
    pointer to a struct, and so is the second unless the struct type has
    no fields; passing a struct itself, a nil pointer or a nil interface
    as the destination panics.  The destination keeps its number of
    fields. *)
Theorem CopyModel_returns m1 m2 ign changed A' :
  CopyModel V DeepEqual m1 m2 ign = Returns (changed, A') →
  ∃ t A, m1 = PtrTo (StructVal t A)
         ∧ length A' = length A
         ∧ (t = [] ∨ ∃ t2 B, m2 = PtrTo (StructVal t2 B)).
Proof.
  unfold CopyModel, ValueOf.
  destruct m1 as [| |[t A| | |]|]; simpl; try done;
    destruct m2 as [| |[t2 B| | |]|]; simpl; try done.
  - intros Hrun. exists t, A. split; [done|].
    split; [by eapply copyFields_length|].
    destruct t as [|tf t]; [by left|]. simpl in Hrun.
    by destruct (A !! 0).
  - intros Hrun. exists t, A. split; [done|].
    split; [by eapply copyFields_length|]. right. eauto.
  - intros Hrun. exists t, A. split; [done|].
    split; [by eapply copyFields_length|].
    destruct t as [|tf t]; [by left|]. simpl in Hrun.
    by destruct (A !! 0).
Qed.

(** The boolean is exact on two records of the same type: it is true
    exactly when some exported, non-ignored field was not deeply equal to
    the source's, and when it is false the destination is as it was. *)
Theorem CopyModel_changed_exact t A B ign :
  length A = length t → length B = length t →
  ∃ changed A',
    CopyModel V DeepEqual (record t A) (record t B) ign
      = Returns (changed, A')
    ∧ (changed = true ↔
         ∃ j tf x y, t !! j = Some tf ∧ A !! j = Some x ∧ B !! j = Some y
                     ∧ reflect.Exported tf = true
                     ∧ isIgnoredField ign (reflect.Name tf) = false
                     ∧ DeepEqual x y = false)
    ∧ (changed = false → A' = A).
Proof.
  intros HA HB.
  destruct (CopyModel_same_type V DeepEqual t A B ign HA HB)
    as (changed & A' & Hrun & Hlen & Hpost & Hc).
  exists changed, A'. split; [done|]. split.
  - rewrite Hc. unfold copies.
    split; intros (j & tf & x & y & Htf & Hx & Hy & H);
      exists j, tf, x, y; (split; [done|]); (split; [done|]);
      (split; [done|]).
    + apply andb_prop in H as [[-> ->%negb_true_iff]%andb_prop
                                 ->%negb_true_iff]. done.
    + destruct H as (-> & -> & ->). done.
  - intros ->.
    assert (Hnone : CopyModel V DeepEqual (record t A) (record t B) ign
                    = Returns (false, A)).
    { apply CopyModel_nothing_copied; [done..|].
      intros j tf x y Htf Hx Hy.
      destruct (copies V DeepEqual ign tf x y) eqn:Hcp; [|done].
      assert (false = true); [|done].
      apply Hc. by exists j, tf, x, y. }
    rewrite Hnone in Hrun. by injection Hrun as <-.
Qed.

Local Opaque Field.

Lemma copyFields_ignore_ext ign1 ign2 n : ∀ i t dst s2 changed,
  (∀ name, isIgnoredField ign1 name = isIgnoredField ign2 name) →
  copyFields V DeepEqual n i t dst s2 ign1 changed
  = copyFields V DeepEqual n i t dst s2 ign2 changed.
Proof.
  induction n as [|n IH]; intros i t dst s2 changed Hext; simpl; [done|].
  destruct (Field V (Val (StructVal t dst)) i) as [p1|[x tf]]; simpl; [done|].
  destruct (Field V s2 i) as [p2|[y tf2]]; simpl; [done|].
  rewrite Hext. by rewrite !IH.
Qed.

Local Transparent Field.

(** The ignore-list counts as a set: two lists with the same names, in
    whatever order and however often repeated, give the same call. *)
Theorem CopyModel_ignore_list_as_set m1 m2 ign1 ign2 :
  (∀ name, name ∈ ign1 ↔ name ∈ ign2) →
  CopyModel V DeepEqual m1 m2 ign1 = CopyModel V DeepEqual m1 m2 ign2.
Proof.
  intros Hsame.
  assert (Hext : ∀ name, isIgnoredField ign1 name = isIgnoredField ign2 name).
  { intros name. apply eq_true_iff_eq.
    by rewrite !isIgnoredField_elem. }
  unfold CopyModel, ValueOf.
  destruct m1 as [| |[t A| | |]|], m2 as [| |[t2 B| | |]|]; simpl;
    try done; by apply copyFields_ignore_ext.
Qed.

(** With every field name of the record type in the ignore-list the call
    does nothing and returns false. *)
Theorem CopyModel_all_ignored t A B ign :
  length A = length t → length B = length t →
  (∀ tf, tf ∈ t → reflect.Name tf ∈ ign) →
  CopyModel V DeepEqual (record t A) (record t B) ign = Returns (false, A).
Proof.
  intros HA HB Hall. apply CopyModel_nothing_copied; [done..|].
  intros j tf x y Htf _ _. unfold copies.
  assert (isIgnoredField ign (reflect.Name tf) = true) as ->.
  { apply isIgnoredField_elem, Hall. by eapply list_elem_of_lookup_2. }
  by rewrite andb_false_r.
Qed.

(** Copying a record onto itself leaves it as it is, for every
    [DeepEqual]: what is written into a field is what the field holds.
    (The boolean can still be true, when a value is not deeply equal to
    itself.) *)
Theorem CopyModel_onto_itself t A ign :
  length A = length t →
  ∃ changed,
    CopyModel V DeepEqual (record t A) (record t A) ign
    = Returns (changed, A).
Proof.
  intros HA.
  destruct (CopyModel_same_type V DeepEqual t A A ign HA HA)
    as (changed & A' & Hrun & Hlen & Hpost & _).
  exists changed. rewrite Hrun. f_equal. f_equal.
  apply list_eq. intros j.
  destruct (decide (j < length t)) as [Hj|Hj].
  - destruct (lookup_lt_is_Some_2 t j) as [tf Htf]; [lia|].
    destruct (lookup_lt_is_Some_2 A j) as [x Hx]; [lia|].
    rewrite (Hpost j tf x x) by done. rewrite Hx. by case_match.
  - rewrite !lookup_ge_None_2; [done|lia..].
Qed.

End CopyModel_more.

Lemma CopyModel_panics_witness :
  PanicString double_pointer_message = ReflectPanic
  ∨ PanicString double_pointer_message = PanicString double_pointer_message.
Proof.
  apply (CopyModel_panics GoValue.value GoValue.DeepEqual
           (PtrTo (record entry_type entry_A)) (record entry_type entry_B) []).
  reflexivity.
Defined.

Lemma CopyModel_returns_witness :
  ∃ t A, record entry_type entry_A = PtrTo (StructVal t A)
         ∧ length [GoValue.Str "a1"; GoValue.Str "POST"; GoValue.Int 200;
                   GoValue.Bool false] = length A
         ∧ (t = [] ∨ ∃ t2 B, record entry_type entry_B
                             = PtrTo (StructVal t2 B)).
Proof.
  apply (CopyModel_returns GoValue.value GoValue.DeepEqual
           (record entry_type entry_A) (record entry_type entry_B) ["ID"]
           true).
  reflexivity.
Defined.

Lemma CopyModel_changed_exact_witness :
  ∃ changed A',
    CopyModel GoValue.value GoValue.DeepEqual
      (record entry_type entry_A) (record entry_type entry_B) ["ID"]
    = Returns (changed, A')
    ∧ (changed = true ↔
         ∃ j tf x y, entry_type !! j = Some tf ∧ entry_A !! j = Some x
                     ∧ entry_B !! j = Some y
                     ∧ reflect.Exported tf = true
                     ∧ isIgnoredField ["ID"] (reflect.Name tf) = false
                     ∧ GoValue.DeepEqual x y = false)
    ∧ (changed = false → A' = entry_A).
Proof.
  apply (CopyModel_changed_exact GoValue.value GoValue.DeepEqual
           entry_type entry_A entry_B ["ID"]); reflexivity.
Defined.

Lemma CopyModel_ignore_list_as_set_witness :
  CopyModel GoValue.value GoValue.DeepEqual
    (record entry_type entry_A) (record entry_type entry_B) ["ID"; "Method"]
  = CopyModel GoValue.value GoValue.DeepEqual
      (record entry_type entry_A) (record entry_type entry_B)
      ["Method"; "ID"; "Method"].
Proof.
  apply (CopyModel_ignore_list_as_set GoValue.value GoValue.DeepEqual).
  intros name. rewrite !elem_of_cons, !elem_of_nil. tauto.
Defined.

Lemma CopyModel_all_ignored_witness :
  CopyModel GoValue.value GoValue.DeepEqual
    (record entry_type entry_A) (record entry_type entry_B)
    ["seen"; "StatusCode"; "Method"; "ID"]
  = Returns (false, entry_A).
Proof.
  apply (CopyModel_all_ignored GoValue.value GoValue.DeepEqual
           entry_type entry_A entry_B); [reflexivity|reflexivity|].
  intros tf Htf. apply list_elem_of_In in Htf. apply list_elem_of_In.
  simpl in Htf. destruct Htf as [<-|[<-|[<-|[<-|[]]]]]; simpl; auto.
Defined.

Lemma CopyModel_onto_itself_witness :
  ∃ changed,
    CopyModel GoValue.value GoValue.DeepEqual
      (record handler_type [GoValue.Func (Some 7)])
      (record handler_type [GoValue.Func (Some 7)]) []
    = Returns (changed, [GoValue.Func (Some 7)]).
Proof.
  apply (CopyModel_onto_itself GoValue.value GoValue.DeepEqual
           handler_type [GoValue.Func (Some 7)] []).
  reflexivity.
Defined.

(** ** More on query construction *)

Lemma foldl_insert_lookup_notin (v : Z) (l : list string) name :
  ∀ sel : gmap string Z,
    name ∉ l → foldl (λ sel s, <[s := v]> sel) sel l !! name = sel !! name.
Proof.
  induction l as [|x l IH]; intros sel Hnotin; simpl; [done|].
  apply not_elem_of_cons in Hnotin as [Hne Hnotin].
  rewrite IH by done. by rewrite lookup_insert_ne.
Qed.

Section Find_more.

Variable Session : Type.
Variable bsonM : Type.

Lemma selOf_lookup_cases (q0 : Query bsonM) name :
  selOf q0 !! name =
    if decide (name ∈ OmittedFields q0) then Some (-1)%Z
    else if decide (name ∈ SelectedFields q0) then Some 1%Z
    else None.
Proof.
  unfold selOf. case_decide as Homit; [by apply foldl_insert_lookup|].
  rewrite foldl_insert_lookup_notin by done.
  case_decide as Hsel; [by apply foldl_insert_lookup|].
  by rewrite foldl_insert_lookup_notin, lookup_empty.
Qed.

(** The projection map, entry by entry: a name in the omitted list is
    marked [-1], a name in the selected list only is marked [1], and no
    other name has an entry. *)
Theorem selOf_lookup (q0 : Query bsonM) name :
  selOf q0 !! name =
    if decide (name ∈ OmittedFields q0) then Some (-1)%Z
    else if decide (name ∈ SelectedFields q0) then Some 1%Z
    else None.
Proof. apply selOf_lookup_cases. Qed.

Lemma selOf_size (q0 : Query bsonM) :
  size (selOf q0) = 0 ↔ SelectedFields q0 = [] ∧ OmittedFields q0 = [].
Proof.
  rewrite map_size_empty_iff. split.
  - intros Hempty.
    assert (Hnone : ∀ name, selOf q0 !! name = None)
      by (intros name; by rewrite Hempty, lookup_empty).
    split.
    + destruct (SelectedFields q0) as [|x l] eqn:Hsel; [done|].
      specialize (Hnone x). rewrite selOf_lookup_cases, Hsel in Hnone.
      case_decide; [done|]. rewrite decide_True in Hnone; [done|].
      apply elem_of_cons. by left.
    + destruct (OmittedFields q0) as [|x l] eqn:Homit; [done|].
      specialize (Hnone x). rewrite selOf_lookup_cases, Homit in Hnone.
      rewrite decide_True in Hnone; [done|]. apply elem_of_cons. by left.
  - intros [Hsel Homit]. apply map_eq. intros name.
    rewrite selOf_lookup_cases, Hsel, Homit, lookup_empty.
    rewrite !decide_False; [done|apply not_elem_of_nil..].
Qed.

(** What [Find] makes of a query.  The filter is handed on as it is; a
    projection is set when a field is selected or omitted, and is then
    the projection map; the sort field is set when it is not empty, with
    [-] in front for a descending sort, and the direction counts for
    nothing without a sort field; the limit is set when it is positive,
    so zero and negative limits mean no limit. *)
Theorem Find_translation (c0 : collection Session) (q0 : Query bsonM) :
  s (Find c0 (Some q0)) = Database_Session _ (c _ c0)
  ∧ selector (q (Find c0 (Some q0))) = Some (Filter _ q0)
  ∧ projection (q (Find c0 (Some q0)))
    = (if decide (SelectedFields q0 = [] ∧ OmittedFields q0 = [])
       then None else Some (selOf q0))
  ∧ sort (q (Find c0 (Some q0)))
    = (if decide (SortField _ q0 = "") then None
       else Some (if SortDesc _ q0 then ("-" ++ SortField _ q0)%string
                  else SortField _ q0))
  ∧ limit (q (Find c0 (Some q0)))
    = (if decide (0 < Limit _ q0)%Z then Some (Limit _ q0) else None).
Proof.
  unfold Find.
  assert ((0 <? size (selOf q0))
          = negb (bool_decide (SelectedFields q0 = []
                               ∧ OmittedFields q0 = []))) as ->.
  { case_bool_decide as Hempty.
    - apply selOf_size in Hempty. by rewrite Hempty.
    - apply Nat.ltb_lt. rewrite <- selOf_size in Hempty. lia. }
  destruct (String.eqb_spec (SortField _ q0) "") as [Hsort|Hsort];
    destruct (Z.ltb_spec 0 (Limit _ q0));
    destruct (decide (SelectedFields q0 = [] ∧ OmittedFields q0 = []));
    rewrite ?bool_decide_eq_true_2, ?bool_decide_eq_false_2 by done;
    simpl; repeat case_decide; done || lia.
Qed.

End Find_more.

(** ** The alphabet pages *)

Section AlphabetPageList_properties.

Variable error : Type.
Variable urlRest : Type.
Variable url_Parse : string → error + URL urlRest.
Variable url_ParseQuery : string → gmap string (list string).
Variable Values_Encode : gmap string (list string) → string.
Variable URL_String : URL urlRest → string.

Lemma alphabetPages_map letters : ∀ vals u out,
  alphabetPages urlRest Values_Encode URL_String letters vals u out
  = out ++ (alphabetPage urlRest Values_Encode URL_String vals u
              <$> letters).
Proof.
  induction letters as [|letter letters IH]; intros vals u out; simpl.
  { by rewrite app_nil_r. }
  rewrite IH, <- app_assoc. simpl. do 2 f_equal.
  apply list_fmap_ext. intros _ l _. unfold alphabetPage, Values_Set. simpl.
  by rewrite insert_insert_eq.
Qed.

(** A URL that does not parse gives the parse error and no page.  One
    that parses gives 27 pages, one per letter of the alphabet list in
    order; each page is the URL with its query's [letter] set to that
    page's letter alone and the other query values as they were, although
    all iterations write into one map and one URL. *)
Theorem AlphabetPageListForFeedListPage_spec urlStr :
  AlphabetPageListForFeedListPage error urlRest url_Parse url_ParseQuery
    Values_Encode URL_String urlStr
  = match url_Parse urlStr with
    | inl err => inl err
    | inr u =>
        inr (alphabetPage urlRest Values_Encode URL_String
               (url_ParseQuery (RawQuery u)) u <$> alphabetList)
    end
  ∧ ∀ pages,
      AlphabetPageListForFeedListPage error urlRest url_Parse url_ParseQuery
        Values_Encode URL_String urlStr = inr pages →
      length pages = 27.
Proof.
  unfold AlphabetPageListForFeedListPage, URL_Query.
  destruct (url_Parse urlStr) as [err|u]; [done|].
  rewrite alphabetPages_map. simpl app. split; [done|].
  intros pages [= <-]. reflexivity.
Qed.

End AlphabetPageList_properties.
